(** * tei-publisher-components: pb-page and pb-select

  A shallow embedding of [src/pb-page.js] (the classes [PbPage] and
  [PbSelect]) together with the parts of the refresh protocol that the
  test suite exercises ([pb-document], [pb-view]).

  Components are records, methods are computations in a small
  state-and-exception monad, the browser (console, event dispatch,
  [fetch], [URL], [encodeURIComponent]) is an explicit environment. *)

From stdpp Require Import gmap strings list fin_maps.

(** ** JavaScript values *)

Module JS.

(** The values the string-typed properties of the components take:
    a string coming from an attribute, [null] as set by a constructor,
    [undefined] for a property that was never set. *)
Inductive value :=
| Undefined
| Null
| Str (s : string).

#[global] Instance value_eq_dec : EqDecision value.
Proof. solve_decision. Defined.

(** [if (v)] *)
Definition truthy (v : value) : bool :=
  match v with
  | Str s => negb (bool_decide (s = ""))
  | _ => false
  end.

(** [a === b] *)
Definition strict_eq (a b : value) : bool := bool_decide (a = b).

(** Conversion to a DOMString, as done by a DOM attribute setter such as
    [input.name = v]. *)
Definition to_DOMString (v : value) : string :=
  match v with
  | Undefined => "undefined"
  | Null => "null"
  | Str s => s
  end.

(** [input.value = v]: the [value] attribute of an input element is
    declared [LegacyNullToEmptyString]. *)
Definition to_input_value (v : value) : string :=
  match v with
  | Null => ""
  | _ => to_DOMString v
  end.

(** Exceptions. *)
Inductive exn :=
| TypeError (msg : string)
| SyntaxError (msg : string).

(** Parsed JSON, the result of [response.json()]. *)
#[local] Unset Elimination Schemes.
Inductive json :=
| JNull
| JBool (b : bool)
| JNum (n : Z)
| JString (s : string)
| JArray (l : list json)
| JObject (l : list (string * json)).
#[local] Set Elimination Schemes.

(** Last binding of [k] in a parsed object: [JSON.parse] keeps the last
    of duplicate keys. *)
Fixpoint last_binding (k : string) (l : list (string * json)) : option json :=
  match l with
  | [] => None
  | (k', v) :: l' =>
      match last_binding k l' with
      | Some v' => Some v'
      | None => if bool_decide (k' = k) then Some v else None
      end
  end.

(** [j.k] for the property names the components read ([text], [value]):
    reading a property of [null] throws, a primitive or an array has no
    such property, so the result is [undefined] (here [None]). *)
Definition get_prop (j : json) (k : string) : exn + option json :=
  match j with
  | JNull => inl (TypeError "Cannot read properties of null")
  | JObject l => inr (last_binding k l)
  | _ => inr None
  end.

End JS.

(** ** Computations: state that survives an exception *)

Module Comp.

Inductive result (A : Type) :=
| Ok (a : A)
| Throw (e : JS.exn).
Arguments Ok {A} a.
Arguments Throw {A} e.

(** A method body over a state [S]. The state reached when an exception
    is thrown is kept: a [catch] sees the mutations done before. *)
Definition M (S A : Type) : Type := S → result A * S.

Definition ret {S A} (a : A) : M S A := λ s, (Ok a, s).

Definition bind {S A B} (m : M S A) (f : A → M S B) : M S B :=
  λ s, match m s with
       | (Ok a, s') => f a s'
       | (Throw e, s') => (Throw e, s')
       end.

Definition throw {S A} (e : JS.exn) : M S A := λ s, (Throw e, s).

(** [try { m } catch (e) { h e }], and [promise.catch(h)]. *)
Definition catch {S A} (m : M S A) (h : JS.exn → M S A) : M S A :=
  λ s, match m s with
       | (Ok a, s') => (Ok a, s')
       | (Throw e, s') => h e s'
       end.

Definition gets {S A} (f : S → A) : M S A := λ s, (Ok (f s), s).
Definition modify {S} (f : S → S) : M S unit := λ s, (Ok tt, f s).

(** A pure step that may throw. *)
Definition lift {S A} (r : JS.exn + A) : M S A :=
  match r with
  | inl e => throw e
  | inr a => ret a
  end.

End Comp.

Import Comp.

Declare Scope comp_scope.
Delimit Scope comp_scope with comp.
Notation "x <- c ;; k" := (bind c (λ x, k))
  (at level 100, c at next level, k at level 200, right associativity) : comp_scope.
Notation "c ;;; k" := (bind c (λ _, k))
  (at level 100, k at level 200, right associativity) : comp_scope.
Open Scope comp_scope.

(** ** The browser environment *)

(** A custom event: its name and the fields of its [detail] object. *)
Record event := Event {
  ev_type : string;
  ev_detail : gmap string JS.value
}.

Inductive log_arg :=
| ArgStr (s : string)
| ArgNum (n : nat).

Inductive log_entry :=
| ConsoleLog (fmt : string) (args : list log_arg)
| ConsoleError (fmt : string) (args : list log_arg).

(** The [pb-page] element. *)
Record pb_page := PbPageElement {
  appRoot : JS.value;
  template : JS.value;
  endpoint : string
}.

(** An input element created by [document.createElement('input')]. *)
Record input_element := InputElement {
  input_type : string;
  input_name : string;
  input_value : string;
  input_slot : string
}.

Record env := Env {
  location_href : string;        (* window.location.href *)
  page : pb_page;                (* the surrounding pb-page *)
  console : list log_entry;      (* console output, oldest first *)
  bus : list event;              (* events dispatched on the shared document *)
  inputs : list input_element;   (* input elements created so far; a handle is an index *)
  requests : list string         (* URLs passed to fetch, oldest first *)
}.

Definition env_log (e : log_entry) (w : env) : env :=
  Env (location_href w) (page w) (console w ++ [e]) (bus w) (inputs w) (requests w).
Definition env_dispatch (ev : event) (w : env) : env :=
  Env (location_href w) (page w) (console w) (bus w ++ [ev]) (inputs w) (requests w).
Definition env_set_inputs (l : list input_element) (w : env) : env :=
  Env (location_href w) (page w) (console w) (bus w) l (requests w).
Definition env_fetch (url : string) (w : env) : env :=
  Env (location_href w) (page w) (console w) (bus w) (inputs w) (requests w ++ [url]).
Definition env_set_page (p : pb_page) (w : env) : env :=
  Env (location_href w) p (console w) (bus w) (inputs w) (requests w).

(** ** pb-mixin *)

Module PbMixin.

(** Modelled from the spec: [pbMixin.connectedCallback] (pb-mixin.js is not
    part of the sources). Nothing the spec describes happens here. *)
Definition connectedCallback {S} : M S unit := ret tt.

(** Modelled from the spec: [pbMixin.signalReady] (pb-mixin.js is not part
    of the sources). "Ready" signalling: the named event, carrying the given
    detail, is dispatched on the shared document, which is the event bus. *)
Definition signalReady (name : string) (detail : gmap string JS.value) : M env unit :=
  modify (env_dispatch (Event name detail)).

(** Modelled from the spec: [pbMixin.getEndpoint] (pb-mixin.js is not part
    of the sources). The endpoint is established by the page container and
    "inherited by descendants via lookup, not by copying": the call reads
    the endpoint the surrounding pb-page has now. *)
Definition getEndpoint : M env string := gets (λ w, endpoint (page w)).

(** Modelled from the spec: a descendant "can complete its own
    initialization only after configuration is available", that is, once a
    [pb-page-ready] event is among the events it has observed. *)
Definition initialised (observed : list event) : bool :=
  bool_decide (Exists (λ ev, ev_type ev = "pb-page-ready") observed).

End PbMixin.

(** ** pb-page *)

Module PbPage.

(** [constructor() { super(); this.endpoint = "."; }] *)
Definition constructor : pb_page :=
  {| appRoot := JS.Undefined; template := JS.Undefined; endpoint := "." |}.

(** The [endpoint] attribute, when present, overwrites the property. *)
Definition set_endpoint (e : string) (p : pb_page) : pb_page :=
  {| appRoot := appRoot p; template := template p; endpoint := e |}.

(** [connectedCallback()]; [this] is the page of the environment. *)
Definition connectedCallback : M env unit :=
  PbMixin.connectedCallback ;;;
  this <- gets page ;;
  PbMixin.signalReady "pb-page-ready" {[ "endpoint" := JS.Str (endpoint this) ]}.

End PbPage.

(** ** pb-select *)

Module PbSelect.

(** An entry of [_items]: [{label: item.text, value: item.value}]; a field
    is [None] when the property read gave [undefined]. *)
Record item := Item {
  item_label : option JS.json;
  item_value : option JS.json
}.

(** A light-DOM child of the element: an ordinary node with its [slot]
    attribute ([""] when absent) and the name and value of each of its
    descendants matching [[name]], or an input element of the environment. *)
Inductive child :=
| Node (slot : string) (named : list (string * string))
| Input (h : nat).

(** The event object handed to a listener. *)
Record dom_event := DomEvent {
  cancelable : bool;
  defaultPrevented : bool
}.

Definition preventDefault (ev : dom_event) : dom_event :=
  {| cancelable := cancelable ev;
     defaultPrevented := defaultPrevented ev || cancelable ev |}.

Record t := Select {
  label : JS.value;
  _value : JS.value;
  name : JS.value;
  source : JS.value;
  _items : list item;
  _hidden : option nat;                  (* handle of the hidden input, once connected *)
  children : list child;                 (* light DOM, in document order *)
  rendered : bool;                       (* the template has been rendered into the shadow root *)
  list_selected : JS.value;              (* [selected] of the paper-listbox [#list] *)
  updates : list (string * JS.value);    (* [requestUpdate(name, oldValue)] calls *)
  dispatched : list string               (* events dispatched on the element itself *)
}.

Definition set__value (v : JS.value) (s : t) : t :=
  Select (label s) v (name s) (source s) (_items s) (_hidden s) (children s)
         (rendered s) (list_selected s) (updates s) (dispatched s).
Definition set__items (l : list item) (s : t) : t :=
  Select (label s) (_value s) (name s) (source s) l (_hidden s) (children s)
         (rendered s) (list_selected s) (updates s) (dispatched s).
Definition set__hidden (h : nat) (s : t) : t :=
  Select (label s) (_value s) (name s) (source s) (_items s) (Some h) (children s)
         (rendered s) (list_selected s) (updates s) (dispatched s).
Definition set_children (l : list child) (s : t) : t :=
  Select (label s) (_value s) (name s) (source s) (_items s) (_hidden s) l
         (rendered s) (list_selected s) (updates s) (dispatched s).
Definition requestUpdate (prop : string) (old : JS.value) (s : t) : t :=
  Select (label s) (_value s) (name s) (source s) (_items s) (_hidden s) (children s)
         (rendered s) (list_selected s) (updates s ++ [(prop, old)]) (dispatched s).
Definition dispatchEvent (type : string) (s : t) : t :=
  Select (label s) (_value s) (name s) (source s) (_items s) (_hidden s) (children s)
         (rendered s) (list_selected s) (updates s) (dispatched s ++ [type]).

(** The element together with the environment it runs in. *)
Record state := State {
  this : t;
  world : env
}.

Definition on_this (f : t → t) (st : state) : state := State (f (this st)) (world st).
Definition on_world (f : env → env) (st : state) : state := State (this st) (f (world st)).

(** A method of a mixin or of the page, run from the element. *)
Definition in_world {A} (m : M env A) : M state A :=
  λ st, let '(r, w) := m (world st) in (r, State (this st) w).

(** [constructor() { super(); this._value = null; this._items = []; }] *)
Definition constructor : t :=
  {| label := JS.Undefined; _value := JS.Null; name := JS.Undefined;
     source := JS.Undefined; _items := []; _hidden := None; children := [];
     rendered := false; list_selected := JS.Undefined; updates := [];
     dispatched := [] |}.

(** [input.value = v] on the input with handle [h]. *)
Definition store_input_value (h : nat) (v : JS.value) (l : list input_element)
  : list input_element :=
  alter (λ i, InputElement (input_type i) (input_name i) (JS.to_input_value v)
                           (input_slot i)) h l.

(** [set value(newVal)] *)
Definition set_value (newVal : JS.value) : M state unit :=
  oldVal <- gets (λ st, _value (this st)) ;;
  modify (on_this (set__value newVal)) ;;;
  hidden <- gets (λ st, _hidden (this st)) ;;
  match hidden with
  | Some h =>
      v <- gets (λ st, _value (this st)) ;;
      modify (on_world (λ w, env_set_inputs (store_input_value h v (inputs w)) w))
  | None => ret tt
  end ;;;
  modify (on_this (requestUpdate "value" oldVal)).

(** [get value()] *)
Definition get_value : M state JS.value := gets (λ st, _value (this st)).

(** [connectedCallback()] *)
Definition connectedCallback : M state unit :=
  PbMixin.connectedCallback ;;;
  h <- gets (λ st, length (inputs (world st))) ;;
  nm <- gets (λ st, name (this st)) ;;
  v <- get_value ;;
  modify (on_world (λ w, env_set_inputs
    (inputs w ++ [InputElement "hidden" (JS.to_DOMString nm) (JS.to_input_value v) "output"]) w)) ;;;
  modify (on_this (set__hidden h)) ;;;
  modify (on_this (λ s, set_children (children s ++ [Input h]) s)).

(** The slot a child is assigned to. *)
Definition slot_of (w : env) (c : child) : string :=
  match c with
  | Node slot _ => slot
  | Input h => from_option input_slot "" (inputs w !! h)
  end.

(** [slot.assignedNodes()] for the slot named [slot] ([""] is the default
    slot); the slots exist once the template is rendered. *)
Definition assignedNodes (slot : string) (st : state) : option (list child) :=
  if rendered (this st)
  then Some (filter (λ c, slot_of (world st) c = slot) (children (this st)))
  else None.

(** [_clear()]: every node assigned to the default slot is removed. *)
Definition _clear : M state unit :=
  slot <- gets (assignedNodes "") ;;
  match slot with
  | Some _ =>
      modify (λ st, on_this (set_children
        (filter (λ c, slot_of (world st) c ≠ "") (children (this st)))) st)
  | None => ret tt
  end.

(** [l.join(sep)] *)
Fixpoint join (sep : string) (l : list string) : string :=
  match l with
  | [] => ""
  | [x] => x
  | x :: l' => x +:+ sep +:+ join sep l'
  end.

(** [url.indexOf('?') > -1] *)
Definition has_query (url : string) : bool :=
  match String.index 0 "?" url with
  | Some _ => true
  | None => false
  end.

(** How a [fetch] settles: the promise rejects (network or transport
    failure), or a response arrives whose body parses as JSON or does not. *)
Inductive fetch_outcome :=
| Rejected
| Responded (body : option JS.json).

(** The items built by [json.forEach((item) => items.push({label: item.text,
    value: item.value}))]. *)
Fixpoint collect_items (l : list JS.json) : JS.exn + list item :=
  match l with
  | [] => inr []
  | j :: l' =>
      match JS.get_prop j "text", JS.get_prop j "value" with
      | inr text, inr value =>
          match collect_items l' with
          | inr items => inr (Item text value :: items)
          | inl e => inl e
          end
      | inl e, _ | _, inl e => inl e
      end
  end.

(** [json.forEach(...)]: only an array has the method. *)
Definition items_of_json (j : JS.json) : JS.exn + list item :=
  match j with
  | JS.JArray l => collect_items l
  | _ => inl (JS.TypeError "json.forEach is not a function")
  end.

Section Browser.

(** [encodeURIComponent] and [new URL(src, base).toString()], the latter
    [None] where the constructor throws. *)
Variable encodeURIComponent : string → string.
Variable resolveURL : string → string → option string.

(** [_getParameters()] *)
Definition _getParameters : M state string :=
  slot <- gets (assignedNodes "subform") ;;
  let params :=
    match slot with
    | Some nodes =>
        flat_map (λ node,
          match node with
          | Node _ named =>
              map (λ input, input.1 +:+ "=" +:+ encodeURIComponent input.2) named
          | Input _ => []
          end) nodes
    | None => []
    end in
  ret (join "&" params).

(** [const base = this.getEndpoint() === '.' ? window.location.href :
    `${this.getEndpoint()}/`] *)
Definition _loadRemote_base : M state string :=
  ep <- in_world PbMixin.getEndpoint ;;
  if bool_decide (ep = ".")
  then gets (λ st, location_href (world st))
  else ep' <- in_world PbMixin.getEndpoint ;; ret (ep' +:+ "/").

(** The query string is appended with [&] or [?]. *)
Definition with_parameters (url params : string) : string :=
  if has_query url then url +:+ "&" +:+ params else url +:+ "?" +:+ params.

(** [_loadRemote()], up to and including the call of [fetch]; the result is
    the URL requested, if any. *)
Definition _loadRemote : M state (option string) :=
  src <- gets (λ st, source (this st)) ;;
  if JS.truthy src then
    base <- _loadRemote_base ;;
    url <- match resolveURL (JS.to_DOMString src) base with
           | Some u => ret u
           | None => throw (JS.TypeError "Invalid URL")
           end ;;
    params <- _getParameters ;;
    let url := with_parameters url params in
    modify (on_world (env_log
      (ConsoleLog "<pb-select> loading items from %s" [ArgStr url]))) ;;;
    modify (on_world (env_fetch url)) ;;;
    ret (Some url)
  else ret None.

(** The promise chain attached to [fetch(url)] in [_loadRemote], run when
    the request settles. *)
Definition _loadRemote_settled (url : string) (o : fetch_outcome) : M state unit :=
  catch
    (json <- match o with
             | Rejected => throw (JS.TypeError "Failed to fetch")
             | Responded None => throw (JS.SyntaxError "Unexpected token")
             | Responded (Some j) => ret j
             end ;;
     _clear ;;;
     items <- lift (items_of_json json) ;;
     modify (on_world (env_log
       (ConsoleLog "<pb-select> loaded %d items" [ArgNum (length items)]))) ;;;
     modify (on_this (set__items items)))
    (λ _, modify (on_world (env_log
       (ConsoleError "<pb-select> request to %s failed" [ArgStr url])))).

(** [firstUpdated()]: the listeners registered on the subform call
    [_loadRemote] again on a change; the first load happens here. *)
Definition firstUpdated : M state (option string) := _loadRemote.

End Browser.

(** [_changed(ev)]; the result is the event as the listener leaves it. *)
Definition _changed (ev : dom_event) : M state dom_event :=
  let ev := preventDefault ev in
  hidden <- gets (λ st, _hidden (this st)) ;;
  match hidden with
  | None => throw (JS.TypeError "Cannot read properties of undefined")
  | Some h =>
      current <- gets (λ st, from_option input_value "" (inputs (world st) !! h)) ;;
      list <- gets (λ st, if rendered (this st)
                          then Some (list_selected (this st)) else None) ;;
      match list with
      | None => throw (JS.TypeError "Cannot read properties of null")
      | Some selected =>
          if JS.strict_eq (JS.Str current) selected then ret ev
          else
            modify (on_world (λ w, env_set_inputs
              (store_input_value h selected (inputs w)) w)) ;;;
            modify (on_this (dispatchEvent "change")) ;;;
            ret ev
      end
  end.

(** The user picks the item whose value is [v]: the listbox updates its
    [selected] property and fires [iron-select], handled by [_changed]. *)
Definition select_item (v : JS.value) (ev : dom_event) : M state dom_event :=
  modify (on_this (λ s,
    Select (label s) (_value s) (name s) (source s) (_items s) (_hidden s)
           (children s) (rendered s) v (updates s) (dispatched s))) ;;;
  _changed ev.

(** The element is connected: its hidden input exists. *)
Definition connected (st : state) : Prop :=
  ∃ h, _hidden (this st) = Some h ∧ h < length (inputs (world st)).

(** The hidden input the element refers to holds the current [value] of
    the element (as an input holds it). A hidden input left among the
    children by an earlier connection is not constrained here; what a form
    submits is [submitted] below. *)
Definition in_sync (st : state) : Prop :=
  ∀ h, _hidden (this st) = Some h →
       input_value <$> inputs (world st) !! h
       = Some (JS.to_input_value (_value (this st))).

(** The shadow tree after the first render: the template is in place and
    the binding [.selected="${this.value}"] has set the selection of the
    listbox. *)
Definition first_render (st : state) : state :=
  on_this (λ s,
    Select (label s) (_value s) (name s) (source s) (_items s) (_hidden s)
           (children s) true (_value s) (updates s) (dispatched s)) st.

(** The handles of the input elements among the children, in document
    order. *)
Definition hidden_children (s : t) : list nat :=
  omap (λ c, match c with Input h => Some h | Node _ _ => None end) (children s).

(** What the input elements among the children contribute to a form
    submission: the name and the value of each, in document order. *)
Definition submitted (st : state) : list (string * string) :=
  omap (λ h, (λ i, (input_name i, input_value i)) <$> inputs (world st) !! h)
       (hidden_children (this st)).

(** A select as in a page: [<pb-select name="lang" value="a" source="api/items">]
    with one static option and a subform, connected and rendered. *)
Definition example_world : env :=
  Env "http://localhost:8080/app/" PbPage.constructor [] [] [] [].

Definition example_markup : t :=
  Select JS.Undefined JS.Null (JS.Str "lang") (JS.Str "api/items") [] None
         [Node "" []; Node "subform" [("q", "x y")]]
         false JS.Undefined [] [].

(** [new URL(src, base).toString()] for a relative source without dots and
    a base ending in a slash, and [encodeURIComponent] on unreserved
    characters: enough for the URLs of the examples. *)
Definition resolve_relative (src base : string) : option string := Some (base +:+ src).
Definition encode_plain (s : string) : string := s.

Definition example_connected : state :=
  first_render
    ((set_value (JS.Str "a") ;;; connectedCallback) (State example_markup example_world)).2.

(** What [render()] puts into the listbox: the content of the default
    slot, then one [paper-item] for each entry of [_items]. *)
Inductive option_view :=
| Slotted (c : child)
| Loaded (i : item).

Definition options (st : state) : list option_view :=
  (Slotted <$> filter (λ c, slot_of (world st) c = "") (children (this st)))
  ++ (Loaded <$> _items (this st)).

(** The hidden input the element refers to is one of its children, a
    hidden input in the [output] slot that carries the name of the element. *)
Definition hidden_ok (st : state) : Prop :=
  ∀ h, _hidden (this st) = Some h →
       Input h ∈ children (this st)
       ∧ ∃ i, inputs (world st) !! h = Some i
              ∧ input_type i = "hidden"
              ∧ input_slot i = "output"
              ∧ input_name i = JS.to_DOMString (name (this st)).

(** The named inputs a child contributes to the query: those of a node in
    the [subform] slot. *)
Definition subform_inputs (c : child) : list (string * string) :=
  match c with
  | Node slot named => if decide (slot = "subform") then named else []
  | Input _ => []
  end.

Section Calls.

Variable encodeURIComponent : string → string.
Variable resolveURL : string → string → option string.

(** What happens to the element during its life: the callbacks of the
    platform, the settling of a request, and the user. *)
Inductive call :=
| SetValue (v : JS.value)
| Connected
| FirstUpdated
| LoadRemote
| Settled (url : string) (o : fetch_outcome)
| Clear
| Changed (ev : dom_event)
| SelectItem (v : JS.value) (ev : dom_event).

Definition perform (c : call) : M state unit :=
  match c with
  | SetValue v => set_value v
  | Connected => connectedCallback
  | FirstUpdated =>
      modify first_render ;;;
      _ <- firstUpdated encodeURIComponent resolveURL ;; ret tt
  | LoadRemote => _ <- _loadRemote encodeURIComponent resolveURL ;; ret tt
  | Settled url o => _loadRemote_settled url o
  | Clear => _clear
  | Changed ev => _ <- _changed ev ;; ret tt
  | SelectItem v ev => _ <- select_item v ev ;; ret tt
  end.

(** The state after a sequence of calls; a call that throws leaves the
    state it had reached, and the next call comes all the same. *)
Definition perform_all (cs : list call) (st : state) : state :=
  foldl (λ st c, (perform c st).2) st cs.

(** The calls that come from the user choosing an item. *)
Definition is_selection (c : call) : bool :=
  match c with
  | Changed _ | SelectItem _ _ => true
  | _ => false
  end.

(** The insertions of the element into a document. *)
Definition is_connection (c : call) : bool :=
  match c with
  | Connected => true
  | _ => false
  end.

End Calls.

(** The element has never been connected: it has no hidden input and no
    input among its children. *)
Definition unconnected (st : state) : Prop :=
  hidden_children (this st) = [] ∧ _hidden (this st) = None.

(** The element has been connected once: the hidden input it refers to is
    the one input among its children, sits in the [output] slot and holds
    the current [value]. *)
Definition connected_once (st : state) : Prop :=
  ∃ h i, hidden_children (this st) = [h]
         ∧ _hidden (this st) = Some h
         ∧ inputs (world st) !! h = Some i
         ∧ input_slot i = "output"
         ∧ input_value i = JS.to_input_value (_value (this st)).

End PbSelect.

(** ** pb-document *)

Module PbDocument.

(** Modelled from the spec: the document descriptor held by pb-document
    (pb-document.js is not part of the sources). A descriptor is the object
    [{ id, path, odd, view, xpath, position }] with the fields set so far;
    the detail of a [pb-refresh] event is a partial descriptor. On a
    refresh event the detail is merged into the descriptor: "merge
    semantics — only supplied fields overwrite". A field supplied as [null]
    is supplied. *)
Definition merge (detail d : gmap string JS.value) : gmap string JS.value :=
  detail ∪ d.

End PbDocument.

(** ** pb-view *)

Module PbView.

(** Modelled from the spec: what the endpoint holds for a descriptor
    (the server is not part of the sources): the markup of the document and
    its footnote markup, empty when the source document has none. *)
Record source_document := SourceDocument {
  body : string;
  notes : string
}.

(** Modelled from the spec: the requests of the viewer (pb-view.js is not
    part of the sources): the primary fetch, and in footnote-append mode the
    secondary fetch for footnote markup; each carries the query parameters
    derived from the descriptor when the request was built. *)
Inductive request :=
| Primary (params : gmap string JS.value)
| Footnotes (params : gmap string JS.value).

(** Modelled from the spec: the states of the viewer's state machine
    (pb-view.js is not part of the sources). *)
Inductive status := Idle | Loading.

(** Modelled from the spec: the viewer (pb-view.js is not part of the
    sources): the [not-found] and [append-footnotes] attributes, the state
    of the state machine, the content region and the footnote region. *)
Record t := View {
  notFound : string;
  appendFootnotes : bool;
  phase : status;
  content : string;
  footnotes : string
}.

(** One viewer together with the descriptor it is bound to, seen on its
    own; the page with all the viewers of a descriptor is [page_state]
    below. *)
Record state := State {
  doc : gmap string JS.value;    (* the descriptor the viewer is bound to *)
  view : t;
  pending : list request;        (* requests in flight, oldest first *)
  world : env
}.

Definition pb_end_update : event := Event "pb-end-update" ∅.

Definition is_end_update (ev : event) : bool :=
  bool_decide (ev_type ev = "pb-end-update").

(** The terminal events observed on the shared document so far. *)
Definition terminal_events (st : state) : nat :=
  length (filter (λ ev, is_end_update ev = true) (bus (world st))).

Definition quiescent (st : state) : bool :=
  bool_decide (pending st = []).

Section Remote.

(** The resource the endpoint serves for given query parameters, [None]
    when there is none. *)
Variable remote : gmap string JS.value → option source_document.

(** Modelled from the spec: reaction to [pb-refresh] (pb-document.js and
    pb-view.js are not part of the sources): the detail is merged into the
    descriptor, the viewer enters {loading} and fetches with the parameters
    of the merged descriptor. A fetch in flight is not cancelled. The test
    suite refreshes with a detail whose [id] is not the id of the document
    and the view still reloads, so every refresh event is acted on. *)
Definition refresh (detail : gmap string JS.value) : M state unit :=
  modify (λ st,
    let d := PbDocument.merge detail (doc st) in
    let v := view st in
    State d
          (View (notFound v) (appendFootnotes v) Loading (content v) (footnotes v))
          (pending st ++ [Primary d])
          (world st)).

(** Modelled from the spec: re-entry of {idle} (pb-view.js is not part of
    the sources): "terminal event emitted on every idle re-entry". *)
Definition finish (content' footnotes' : string) (rest : list request) : M state unit :=
  modify (λ st,
    let v := view st in
    State (doc st)
          (View (notFound v) (appendFootnotes v) Idle content' footnotes')
          rest
          (env_dispatch pb_end_update (world st))).

(** Modelled from the spec: the [i]-th request in flight settles
    (pb-view.js is not part of the sources). Primary fetch: on success the
    rendered content is replaced wholesale by the returned markup, and in
    footnote-append mode the secondary fetch is issued; on failure the
    placeholder message is rendered. Secondary fetch: the footnote markup is
    appended to the footnote region. The cycle ends with the terminal
    event. *)
Definition settle (i : nat) : M state unit :=
  req <- gets (λ st, pending st !! i) ;;
  rest <- gets (λ st, delete i (pending st)) ;;
  v <- gets view ;;
  match req with
  | None => ret tt
  | Some (Primary d) =>
      match remote d with
      | Some r =>
          if appendFootnotes v then
            modify (λ st,
              State (doc st)
                    (View (notFound v) (appendFootnotes v) Loading (body r) "")
                    (rest ++ [Footnotes d])
                    (world st))
          else finish (body r) "" rest
      | None => finish (notFound v) "" rest
      end
  | Some (Footnotes d) =>
      finish (content v) (footnotes v +:+ from_option notes "" (remote d)) rest
  end.

(** Modelled from the spec: the event loop (the browser is not part of the
    sources): all work is a reaction to a refresh event or to the callback
    of a fetch that settles, one at a time. *)
Inductive action :=
| Refresh (detail : gmap string JS.value)
| Settle (i : nat).

Definition step (a : action) : M state unit :=
  match a with
  | Refresh detail => refresh detail
  | Settle i => settle i
  end.

(** The actions in the order the event loop takes them. *)
Fixpoint run (acts : list action) : M state unit :=
  match acts with
  | [] => ret tt
  | a :: acts' => step a ;;; run acts'
  end.

(** The refresh events among the actions. *)
Fixpoint refreshes (acts : list action) : nat :=
  match acts with
  | [] => 0
  | Refresh _ :: acts' => S (refreshes acts')
  | Settle _ :: acts' => refreshes acts'
  end.

(** The state [st] after the actions [acts]. *)
Definition after (acts : list action) (st : state) : state := (run acts st).2.

(** The view a refresh cycle for the parameters [d] ends with, started from
    the view [v]. *)
Definition cycle_result (d : gmap string JS.value) (v : t) : t :=
  match remote d with
  | Some r =>
      View (notFound v) (appendFootnotes v) Idle (body r)
           (if appendFootnotes v then notes r else "")
  | None => View (notFound v) (appendFootnotes v) Idle (notFound v) ""
  end.

(** Where a single refresh cycle for [d] can be, started from the view [v]
    with the events [b] on the shared document: the primary fetch in
    flight, the secondary fetch in flight, or finished. *)
Definition in_cycle (d : gmap string JS.value) (v : t) (b : list event)
    (st : state) : Prop :=
  doc st = d ∧
  ((pending st = [Primary d]
    ∧ view st = View (notFound v) (appendFootnotes v) Loading (content v) (footnotes v)
    ∧ bus (world st) = b)
   ∨ (∃ r, remote d = Some r ∧ appendFootnotes v = true
        ∧ pending st = [Footnotes d]
        ∧ view st = View (notFound v) (appendFootnotes v) Loading (body r) ""
        ∧ bus (world st) = b)
   ∨ (pending st = []
      ∧ view st = cycle_result d v
      ∧ bus (world st) = b ++ [pb_end_update])).

(** Modelled from the spec: the page around one descriptor (pb-view.js and
    pb-document.js are not part of the sources): "multiple view components
    may reference the same descriptor by id and all refresh when it
    changes". A page holds the descriptor, the viewers bound to it (none,
    one or several), each with its own requests in flight, and the shared
    document on which all of them dispatch. *)
Record bound_view := BoundView {
  bv_view : t;
  bv_pending : list request
}.

Record page_state := PageState {
  pg_doc : gmap string JS.value;
  pg_views : list bound_view;
  pg_world : env
}.

(** One viewer of the page, seen on its own. *)
Definition view_state (pg : page_state) (bv : bound_view) : state :=
  State (pg_doc pg) (bv_view bv) (bv_pending bv) (pg_world pg).

Definition bound_view_of (st : state) : bound_view :=
  BoundView (view st) (pending st).

(** Modelled from the spec: a refresh event on the page: the detail is
    merged into the descriptor and every viewer bound to it reacts as in
    [refresh]. *)
Definition page_refresh (detail : gmap string JS.value) : M page_state unit :=
  modify (λ pg,
    PageState (PbDocument.merge detail (pg_doc pg))
              (map (λ bv, bound_view_of (refresh detail (view_state pg bv)).2)
                   (pg_views pg))
              (pg_world pg)).

(** Modelled from the spec: the [i]-th request of the [k]-th viewer
    settles, as in [settle]; the terminal event goes to the shared
    document. *)
Definition page_settle (k i : nat) : M page_state unit :=
  modify (λ pg,
    match pg_views pg !! k with
    | None => pg
    | Some bv =>
        let st := (settle i (view_state pg bv)).2 in
        PageState (doc st) (<[k := bound_view_of st]> (pg_views pg)) (world st)
    end).

Inductive page_action :=
| PageRefresh (detail : gmap string JS.value)
| PageSettle (k i : nat).

Definition page_step (a : page_action) : M page_state unit :=
  match a with
  | PageRefresh detail => page_refresh detail
  | PageSettle k i => page_settle k i
  end.

Fixpoint page_run (acts : list page_action) : M page_state unit :=
  match acts with
  | [] => ret tt
  | a :: acts' => page_step a ;;; page_run acts'
  end.

Definition page_after (acts : list page_action) (pg : page_state) : page_state :=
  (page_run acts pg).2.

(** The settlements [(k, i)] of a schedule. *)
Definition settlements (sched : list (nat * nat)) : list page_action :=
  map (λ ki, PageSettle ki.1 ki.2) sched.

End Remote.

(** The terminal events observed on the shared document of the page. *)
Definition page_terminal_events (pg : page_state) : nat :=
  length (filter (λ ev, is_end_update ev = true) (bus (pg_world pg))).

(** No viewer of the page has a request in flight. *)
Definition page_quiescent (pg : page_state) : bool :=
  bool_decide (Forall (λ bv, bv_pending bv = []) (pg_views pg)).

(** The requests in flight on the page, and the settlements they still
    need: a primary fetch may be followed by a secondary one. *)
Definition page_pending (pg : page_state) : nat :=
  sum_list_with (λ bv, length (bv_pending bv)) (pg_views pg).

Definition request_weight (r : request) : nat :=
  match r with
  | Primary _ => 2
  | Footnotes _ => 1
  end.

Definition page_weight (pg : page_state) : nat :=
  sum_list_with (λ bv, sum_list_with request_weight (bv_pending bv)) (pg_views pg).

(** The documents of the test suite: the documentation, without footnotes,
    and a letter with footnotes; nothing else exists. *)
Definition example_remote (d : gmap string JS.value) : option source_document :=
  if decide (d !! "path" = Some (JS.Str "doc/documentation.xml"))
  then Some (SourceDocument "<h1>Introduction</h1>" "")
  else if decide (d !! "path" = Some (JS.Str "test/orlik_to_serafin.xml"))
  then Some (SourceDocument "<div>Orlik</div>" "<dl><dt>1</dt><dd>brata</dd></dl>")
  else None.

(** [<pb-document id="document1" path="doc/documentation.xml" odd="docbook"
    view="div">] with [<pb-view src="document1" not-found="Not found"
    append-footnotes>], idle. *)
Definition example_state : state :=
  State {[ "id" := JS.Str "document1"; "path" := JS.Str "doc/documentation.xml";
           "odd" := JS.Str "docbook"; "view" := JS.Str "div" ]}
        (View "Not found" true Idle "" "")
        []
        (Env "http://localhost:8000/" PbPage.constructor [] [] [] []).

(** The page of [example_state] with a second viewer on the same document:
    [<pb-view src="document1">] twice. *)
Definition example_page : page_state :=
  PageState (doc example_state)
            [BoundView (View "Not found" true Idle "" "") [];
             BoundView (View "" false Idle "" "") []]
            (world example_state).

(** [hay] contains [needle]. *)
Definition contains (hay needle : string) : Prop :=
  ∃ pre post, hay = pre +:+ needle +:+ post.

End PbView.

(** * Properties *)

Ltac run_comp :=
  unfold bind, ret, gets, modify, throw, catch, lift; simpl.

(** ** pb-select: value and hidden input *)

Section SelectValue.
Import PbSelect.

Lemma store_input_value_lookup h v (l : list input_element) :
  h < length l →
  input_value <$> store_input_value h v l !! h = Some (JS.to_input_value v).
Proof.
  intros Hlt. unfold store_input_value.
  destruct (lookup_lt_is_Some_2 l h Hlt) as [i Hi].
  by rewrite list_lookup_alter_eq, Hi.
Qed.

Lemma store_input_value_length h v (l : list input_element) :
  length (store_input_value h v l) = length l.
Proof. apply length_alter. Qed.

(** Connecting the element creates the hidden input with the current value. *)
Lemma connectedCallback_in_sync (st : state) :
  ∃ st', connectedCallback st = (Ok tt, st')
         ∧ connected st' ∧ in_sync st'
         ∧ _value (this st') = _value (this st).
Proof.
  eexists. split; [reflexivity|]. simpl. repeat split.
  - exists (length (inputs (world st))). simpl. split; [done|].
    rewrite length_app. simpl. lia.
  - intros h Hh. simpl in *. injection Hh as <-.
    rewrite lookup_app_r, Nat.sub_diag by lia. reflexivity.
Qed.

(** C9 (as amended): once a pb-select is connected, and only once, so that
    its hidden input is the one input among its children, an assignment to
    its [value] property stores the new value in the element and the same
    value, as an input holds it, in the hidden input; right after the
    assignment the one value a form submits for the element is the current
    value of the element. *)
Theorem set_value_updates_hidden (st : state) (h : nat) (newVal : JS.value) :
  _hidden (this st) = Some h →
  h < length (inputs (world st)) →
  hidden_children (this st) = [h] →
  ∃ st', set_value newVal st = (Ok tt, st')
         ∧ get_value st' = (Ok newVal, st')
         ∧ input_value <$> inputs (world st') !! h = Some (JS.to_input_value newVal)
         ∧ snd <$> submitted st' = [JS.to_input_value newVal]
         ∧ in_sync st' ∧ connected st'.
Proof.
  intros Hh Hlt Hone. unfold set_value. run_comp. rewrite Hh. simpl.
  eexists. split; [reflexivity|]. simpl.
  pose proof (store_input_value_lookup h newVal _ Hlt) as Hv.
  split; [reflexivity|].
  split; [exact Hv|].
  split; [|split].
  - unfold submitted, hidden_children in *. simpl. rewrite Hone. simpl.
    destruct (store_input_value h newVal (inputs (world st)) !! h) as [i|];
      [|discriminate].
    simpl in *. by injection Hv as ->.
  - intros h' Hh'. simpl in *. rewrite Hh in Hh'. by injection Hh' as <-.
  - exists h. simpl. by rewrite store_input_value_length.
Qed.

Lemma set_value_updates_hidden_witness :
  ∃ st', set_value (JS.Str "b") example_connected = (Ok tt, st')
         ∧ get_value st' = (Ok (JS.Str "b"), st')
         ∧ input_value <$> inputs (world st') !! 0 = Some (JS.to_input_value (JS.Str "b"))
         ∧ snd <$> submitted st' = [JS.to_input_value (JS.Str "b")]
         ∧ in_sync st' ∧ connected st'.
Proof.
  apply (set_value_updates_hidden example_connected 0 (JS.Str "b")).
  - reflexivity.
  - simpl. lia.
  - reflexivity.
Defined.

(** C9 (as stated) fails: the select is connected with value "a" and in
    sync; the user then picks the item "b". [_changed] stores "b" in the
    hidden input and leaves the [value] property at "a", so the form
    submits a value that is not the current value of the element. *)
Lemma selection_leaves_value_behind :
  let st := (select_item (JS.Str "b") (DomEvent true false) example_connected).2 in
  connected example_connected ∧ in_sync example_connected
  ∧ get_value st = (Ok (JS.Str "a"), st)
  ∧ input_value <$> inputs (world st) !! 0 = Some "b"
  ∧ ¬ in_sync st.
Proof.
  simpl. repeat split.
  - exists 0. simpl. split; [done | lia].
  - intros h Hh. simpl in Hh. injection Hh as <-. reflexivity.
  - intros Hsync. specialize (Hsync 0 eq_refl). simpl in Hsync. discriminate.
Qed.

(** ** pb-select: selecting an item *)

(** C10: [_changed] dispatches a [change] event exactly when the value
    selected in the listbox is not (by [===]) the current value of the
    hidden input, which then takes the selected value; when it is the
    current value nothing is dispatched and the state is left as it was. *)
Theorem changed_dispatches_iff_different
    (st : state) (h : nat) (cur : string) (ev : dom_event) :
  _hidden (this st) = Some h →
  input_value <$> inputs (world st) !! h = Some cur →
  rendered (this st) = true →
  ∃ st', _changed ev st = (Ok (preventDefault ev), st')
    ∧ dispatched (this st')
      = dispatched (this st)
        ++ (if decide (list_selected (this st) = JS.Str cur) then [] else ["change"])
    ∧ (list_selected (this st) = JS.Str cur → st' = st)
    ∧ (list_selected (this st) ≠ JS.Str cur →
       input_value <$> inputs (world st') !! h
       = Some (JS.to_input_value (list_selected (this st)))
       ∧ _value (this st') = _value (this st)).
Proof.
  intros Hh Hcur Hr. unfold _changed. run_comp. rewrite Hh, Hr. simpl.
  destruct (inputs (world st) !! h) as [i|] eqn:Hi; [|discriminate].
  simpl in Hcur. injection Hcur as Hcur. simpl. rewrite Hcur.
  unfold JS.strict_eq. case_bool_decide as Heq.
  - eexists. split; [reflexivity|].
    rewrite decide_True by done. rewrite app_nil_r. by repeat split.
  - eexists. split; [reflexivity|]. simpl.
    rewrite decide_False by congruence.
    split; [done|]. split; [congruence|]. intros _. split; [|done].
    apply store_input_value_lookup. by eapply lookup_lt_Some.
Qed.

Lemma changed_dispatches_iff_different_witness :
  ∃ st', _changed (DomEvent true false) example_connected
         = (Ok (preventDefault (DomEvent true false)), st')
    ∧ dispatched (this st')
      = dispatched (this example_connected)
        ++ (if decide (list_selected (this example_connected) = JS.Str "a")
            then [] else ["change"])
    ∧ (list_selected (this example_connected) = JS.Str "a" → st' = example_connected)
    ∧ (list_selected (this example_connected) ≠ JS.Str "a" →
       input_value <$> inputs (world st') !! 0
       = Some (JS.to_input_value (list_selected (this example_connected)))
       ∧ _value (this st') = _value (this example_connected)).
Proof.
  apply (changed_dispatches_iff_different example_connected 0 "a" (DomEvent true false));
    reflexivity.
Defined.

(** Re-selecting the current item is silent; picking another one is not. *)
Example reselect_is_silent :
  let st := (select_item (JS.Str "a") (DomEvent true false) example_connected).2 in
  dispatched (this st) = [] ∧ inputs (world st) = inputs (world example_connected).
Proof. by split. Qed.

Example select_other_dispatches :
  let st := (select_item (JS.Str "b") (DomEvent true false) example_connected).2 in
  dispatched (this st) = ["change"].
Proof. reflexivity. Qed.

End SelectValue.

(** ** pb-select: loading the items *)

Section SelectLoad.
Import PbSelect.

Variable encodeURIComponent : string → string.
Variable resolveURL : string → string → option string.

#[local] Abbreviation _getParameters := (_getParameters encodeURIComponent).
#[local] Abbreviation _loadRemote := (_loadRemote encodeURIComponent resolveURL).

(** Reading the parameters and issuing a request leave the element alone. *)
Lemma getParameters_pure (st : state) :
  ∃ params, _getParameters st = (Ok params, st).
Proof. eexists. reflexivity. Qed.

Lemma loadRemote_this (st : state) :
  this (_loadRemote st).2 = this st
  ∧ page (world (_loadRemote st).2) = page (world st)
  ∧ location_href (world (_loadRemote st).2) = location_href (world st).
Proof.
  unfold PbSelect._loadRemote, _loadRemote_base, in_world, PbMixin.getEndpoint.
  run_comp.
  destruct (JS.truthy (source (this st))); [|done].
  case_bool_decide; simpl; destruct (resolveURL _ _); done.
Qed.

(** The request [_loadRemote] issues when the source resolves against the
    base to [u]. *)
Lemma loadRemote_request (st : state) (src base u : string) :
  source (this st) = JS.Str src →
  src ≠ "" →
  _loadRemote_base st = (Ok base, st) →
  resolveURL src base = Some u →
  ∃ params st',
    _getParameters st = (Ok params, st)
    ∧ _loadRemote st = (Ok (Some (with_parameters u params)), st')
    ∧ requests (world st') = requests (world st) ++ [with_parameters u params]
    ∧ this st' = this st.
Proof.
  intros Hsrc Hne Hbase Hu.
  eexists. eexists. split; [reflexivity|].
  unfold PbSelect._loadRemote. unfold bind at 1. unfold gets at 1.
  rewrite Hsrc. simpl. rewrite bool_decide_eq_false_2 by done. simpl.
  unfold bind at 1. rewrite Hbase. rewrite Hu.
  split; [reflexivity|]. done.
Qed.

Lemma loadRemote_base_spec (st : state) :
  _loadRemote_base st
  = (Ok (if bool_decide (endpoint (page (world st)) = ".")
         then location_href (world st)
         else endpoint (page (world st)) +:+ "/"), st).
Proof.
  unfold _loadRemote_base, in_world, PbMixin.getEndpoint. run_comp.
  destruct st as [s w]. simpl. by case_bool_decide.
Qed.

(** C5: a page constructed without an endpoint has the endpoint ".", the
    current context: a pb-select below it resolves its source against
    [window.location.href] and requests the resulting URL. *)
Theorem default_endpoint_is_current_context (st : state) (src u : string) :
  page (world st) = PbPage.constructor →
  source (this st) = JS.Str src →
  src ≠ "" →
  resolveURL src (location_href (world st)) = Some u →
  endpoint PbPage.constructor = "."
  ∧ _loadRemote_base st = (Ok (location_href (world st)), st)
  ∧ ∃ params st',
      _getParameters st = (Ok params, st)
      ∧ _loadRemote st = (Ok (Some (with_parameters u params)), st')
      ∧ requests (world st') = requests (world st) ++ [with_parameters u params].
Proof.
  intros Hpage Hsrc Hne Hu.
  assert (Hbase : _loadRemote_base st = (Ok (location_href (world st)), st)).
  { rewrite loadRemote_base_spec, Hpage. reflexivity. }
  split; [reflexivity|]. split; [exact Hbase|].
  destruct (loadRemote_request st src _ u Hsrc Hne Hbase Hu)
    as (params & st' & Hp & Hl & Hr & _).
  by exists params, st'.
Qed.

(** C7: the element keeps no endpoint of its own; [_loadRemote] asks
    [getEndpoint()] on every call. After a first request, whatever it did,
    a change of the endpoint of the page decides the base of the next
    request. *)
Theorem endpoint_resolved_at_request_time (st : state) (e src u : string) :
  source (this st) = JS.Str src →
  src ≠ "" →
  resolveURL src (if bool_decide (e = ".")
                  then location_href (world st) else e +:+ "/") = Some u →
  let st1 := (_loadRemote st).2 in
  let st2 := on_world (λ w, env_set_page (PbPage.set_endpoint e (page w)) w) st1 in
  ∃ params st3,
    _getParameters st2 = (Ok params, st2)
    ∧ _loadRemote st2 = (Ok (Some (with_parameters u params)), st3)
    ∧ requests (world st3) = requests (world st2) ++ [with_parameters u params].
Proof.
  intros Hsrc Hne Hu st1 st2.
  destruct (loadRemote_this st) as (Hthis & _ & Hhref).
  assert (Hsrc2 : source (this st2) = JS.Str src).
  { unfold st2, st1. simpl. by rewrite Hthis. }
  assert (Hbase : _loadRemote_base st2
                  = (Ok (if bool_decide (e = ".")
                         then location_href (world st) else e +:+ "/"), st2)).
  { rewrite loadRemote_base_spec. unfold st2, st1. simpl. by rewrite Hhref. }
  destruct (loadRemote_request st2 src _ u Hsrc2 Hne Hbase Hu)
    as (params & st3 & Hp & Hl & Hr & _).
  by exists params, st3.
Qed.

(** C6: when the request fails on the network (the promise of [fetch]
    rejects), the handlers log one error to the console and do nothing
    else: the element (its items, its children, its value) and the rest of
    the environment are as before, and nothing is thrown. *)
Theorem load_failure_only_logs (url : string) (st : state) :
  ∃ st', _loadRemote_settled url Rejected st = (Ok tt, st')
    ∧ this st' = this st
    ∧ console (world st')
      = console (world st)
        ++ [ConsoleError "<pb-select> request to %s failed" [ArgStr url]]
    ∧ bus (world st') = bus (world st)
    ∧ inputs (world st') = inputs (world st)
    ∧ requests (world st') = requests (world st)
    ∧ page (world st') = page (world st).
Proof. eexists. split; [reflexivity|]. by repeat split. Qed.

(** A response whose body is not JSON ends the same way. *)
Lemma load_bad_body_only_logs (url : string) (st : state) :
  _loadRemote_settled url (Responded None) st
  = (Ok tt, on_world (env_log
      (ConsoleError "<pb-select> request to %s failed" [ArgStr url])) st).
Proof. reflexivity. Qed.

End SelectLoad.

(** ** pb-page *)

Section Page.

Lemma prefix_snoc_cases {A} (obs l : list A) (x : A) :
  obs `prefix_of` l ++ [x] → obs `prefix_of` l ∨ obs = l ++ [x].
Proof.
  intros [k Hk]. destruct k as [|y k _] using rev_ind.
  - right. by rewrite app_nil_r in Hk.
  - left. rewrite app_assoc in Hk. apply app_inj_tail in Hk as [-> _].
    by exists k.
Qed.

Lemma initialised_prefix (obs l : list event) :
  obs `prefix_of` l → PbMixin.initialised obs = true → PbMixin.initialised l = true.
Proof.
  intros [k ->]. unfold PbMixin.initialised.
  rewrite !bool_decide_eq_true, Exists_app. tauto.
Qed.

(** C4: [connectedCallback] of the page dispatches one event,
    [pb-page-ready], whose detail carries the endpoint of the page. It is
    the signal a descendant waits for: a descendant that was not
    initialised before is initialised once it has observed the events up to
    and including this one, and not on any shorter prefix. *)
Theorem page_connected_signals_ready (w : env) :
  ∃ w', PbPage.connectedCallback w = (Ok tt, w')
    ∧ bus w'
      = bus w ++ [Event "pb-page-ready" {[ "endpoint" := JS.Str (endpoint (page w)) ]}]
    ∧ page w' = page w
    ∧ PbMixin.initialised (bus w') = true
    ∧ (PbMixin.initialised (bus w) = false →
       ∀ obs, obs `prefix_of` bus w' → PbMixin.initialised obs = true → obs = bus w').
Proof.
  eexists. split; [reflexivity|]. simpl.
  split; [done|]. split; [done|]. split.
  - unfold PbMixin.initialised. rewrite bool_decide_eq_true, Exists_app.
    right. by constructor.
  - intros Hnot obs Hpre Hobs.
    destruct (prefix_snoc_cases _ _ _ Hpre) as [Hold | ->]; [|done].
    rewrite (initialised_prefix _ _ Hold Hobs) in Hnot. discriminate.
Qed.

(** The page of the test suite. *)
Example page_ready_example :
  let p := PbPage.set_endpoint "http://localhost:8080/exist/apps/tei-publisher"
             PbPage.constructor in
  bus (PbPage.connectedCallback (Env "http://localhost/" p [] [] [] [])).2
  = [Event "pb-page-ready"
       {[ "endpoint" := JS.Str "http://localhost:8080/exist/apps/tei-publisher" ]}].
Proof. reflexivity. Qed.

End Page.

(** ** pb-document: merging a refresh *)

Section Document.

(** C3: the merge of a refresh detail into a descriptor gives every field
    the detail supplies the supplied value, and leaves every other field of
    the descriptor as it was (set fields stay set to the same value, unset
    ones stay unset). *)
Theorem merge_overwrites_supplied_only
    (detail d : gmap string JS.value) (field : string) :
  PbDocument.merge detail d !! field
  = if decide (field ∈ dom detail) then detail !! field else d !! field.
Proof.
  unfold PbDocument.merge. case_decide as Hin.
  - apply elem_of_dom in Hin as [v Hv]. rewrite Hv.
    by apply lookup_union_Some_l.
  - apply not_elem_of_dom in Hin. by apply lookup_union_r.
Qed.

(** The fields the merge can change are the supplied ones. *)
Lemma merge_dom (detail d : gmap string JS.value) :
  dom (PbDocument.merge detail d) = dom detail ∪ dom d.
Proof. apply dom_union_L. Qed.

(** The change of document in the test suite: path, odd and position are
    supplied (position as [null]); id and view are kept. *)
Example merge_change_document :
  PbDocument.merge
    {[ "path" := JS.Str "test/graves6.xml"; "odd" := JS.Str "graves";
       "position" := JS.Null ]}
    {[ "id" := JS.Str "document1"; "path" := JS.Str "doc/documentation.xml";
       "odd" := JS.Str "docbook"; "view" := JS.Str "div" ]}
  = {[ "id" := JS.Str "document1"; "path" := JS.Str "test/graves6.xml";
       "odd" := JS.Str "graves"; "view" := JS.Str "div";
       "position" := JS.Null ]}.
Proof. by vm_compute. Qed.

End Document.

(** ** pb-view: the refresh cycle *)

Section View.
Import PbView.

Variable remote : gmap string JS.value → option source_document.

#[local] Abbreviation step := (step remote).
#[local] Abbreviation run := (run remote).
#[local] Abbreviation after := (after remote).
#[local] Abbreviation in_cycle := (in_cycle remote).
#[local] Abbreviation cycle_result := (cycle_result remote).

Lemma step_ok (a : action) (st : state) : (step a st).1 = Ok tt.
Proof.
  destruct a as [detail | i]; [reflexivity|].
  unfold PbView.step, settle. run_comp.
  destruct (pending st !! i) as [[d | d]|]; try reflexivity.
  destruct (remote d); [destruct (appendFootnotes (view st))|]; reflexivity.
Qed.

Lemma after_cons (a : action) (acts : list action) (st : state) :
  after (a :: acts) st = after acts (after [a] st).
Proof.
  unfold PbView.after. simpl. unfold bind, ret.
  pose proof (step_ok a st) as Hok.
  destruct (step a st) as [[[]|e] st']; simpl in *; [done | discriminate].
Qed.

Lemma after_one (a : action) (st : state) : after [a] st = (step a st).2.
Proof.
  unfold PbView.after. simpl. unfold bind, ret.
  pose proof (step_ok a st) as Hok.
  destruct (step a st) as [[[]|e] st']; simpl in *; [done | discriminate].
Qed.

Lemma run_ok (acts : list action) (st : state) : (run acts st).1 = Ok tt.
Proof.
  revert st. induction acts as [|a acts IH]; intros st; [reflexivity|].
  simpl. unfold bind.
  pose proof (step_ok a st) as Hok.
  destruct (step a st) as [[[]|e] st']; simpl in *; [apply IH | discriminate].
Qed.

Lemma terminal_events_dispatch (st : state) (w : env) d v p :
  terminal_events (State d v p (env_dispatch pb_end_update w))
  = S (length (filter (λ ev, is_end_update ev = true) (bus w))).
Proof.
  unfold terminal_events. simpl. rewrite filter_app, length_app. simpl. lia.
Qed.

(** Every request ends with exactly one terminal event: terminal events
    and requests in flight together count the refresh events. *)
Lemma terminal_events_balance (acts : list action) (st : state) :
  terminal_events (after acts st) + length (pending (after acts st))
  = terminal_events st + length (pending st) + refreshes acts.
Proof.
  revert st. induction acts as [|a acts IH]; intros st.
  - unfold PbView.after. simpl. lia.
  - rewrite after_cons, IH, after_one.
    destruct a as [detail | i]; simpl.
    + unfold terminal_events. simpl. rewrite length_app. simpl. lia.
    + unfold settle. run_comp.
      destruct (pending st !! i) as [req|] eqn:Hreq; [|simpl; lia].
      pose proof (length_delete (pending st) i (mk_is_Some _ _ Hreq)) as Hlen.
      pose proof (lookup_lt_Some _ _ _ Hreq) as Hlt.
      assert (Hfin : ∀ c f,
        terminal_events (finish c f (delete i (pending st)) st).2
        + length (pending (finish c f (delete i (pending st)) st).2)
        = terminal_events st + length (pending st)).
      { intros c f. unfold finish. run_comp.
        rewrite (terminal_events_dispatch st). unfold terminal_events. lia. }
      destruct req as [d | d]; [|rewrite Hfin; lia].
      destruct (remote d); [|rewrite Hfin; lia].
      destruct (appendFootnotes (view st)); [|rewrite Hfin; lia].
      unfold terminal_events. simpl. rewrite length_app. simpl. lia.
Qed.

Lemma append_empty_r (s : string) : s +:+ "" = s.
Proof.
  induction s as [|c s IH]; [reflexivity|].
  change (String c s +:+ "") with (String c (s +:+ "")). by rewrite IH.
Qed.

Lemma contains_itself (s : string) : contains s s.
Proof.
  exists "", "". rewrite append_empty_r. reflexivity.
Qed.

Lemma refreshes_settles (sched : list nat) : refreshes (map Settle sched) = 0.
Proof. induction sched; simpl; done. Qed.

Lemma quiescent_true (st : state) : quiescent st = true ↔ pending st = [].
Proof. unfold quiescent. apply bool_decide_eq_true. Qed.

(** A refresh in the idle state starts a cycle. *)
Lemma in_cycle_refresh (st : state) (detail : gmap string JS.value) :
  pending st = [] →
  in_cycle (PbDocument.merge detail (doc st)) (view st) (bus (world st))
           (after [Refresh detail] st).
Proof.
  intros Hidle. rewrite after_one. simpl. split; [done|]. left. simpl.
  rewrite Hidle. by destruct (view st).
Qed.

(** Settling a request moves the cycle on, or changes nothing when there is
    no such request. *)
Lemma in_cycle_settle d v b (st : state) (i : nat) :
  in_cycle d v b st → in_cycle d v b (after [Settle i] st).
Proof.
  intros [Hdoc Hphase]. rewrite after_one.
  destruct st as [d' v' p w]. simpl in *. subst d'.
  unfold PbView.in_cycle, settle. run_comp.
  destruct Hphase as [(-> & -> & <-) | [(r & Hr & Haf & -> & -> & <-) | (-> & -> & Hb)]].
  - destruct i as [|i]; simpl; [|split; [done|]; by left].
    destruct (remote d) as [r|] eqn:Hr; [destruct (appendFootnotes v) eqn:Haf|];
      simpl; (split; [done|]); right.
    + left. by exists r.
    + right. unfold PbView.cycle_result. by rewrite Hr, Haf.
    + right. unfold PbView.cycle_result. by rewrite Hr.
  - destruct i as [|i]; simpl; (split; [done|]); right.
    + right. unfold PbView.cycle_result. by rewrite Hr, Haf.
    + left. by exists r.
  - simpl. split; [done|]. by right; right.
Qed.

Lemma in_cycle_schedule d v b (st : state) (sched : list nat) :
  in_cycle d v b st → in_cycle d v b (after (map Settle sched) st).
Proof.
  revert st. induction sched as [|i sched IH]; intros st Hin; [done|].
  simpl. rewrite after_cons. apply IH. by apply in_cycle_settle.
Qed.

(** A cycle that has no request in flight has finished. *)
Lemma in_cycle_quiescent d v b (st : state) :
  in_cycle d v b st → quiescent st = true →
  view st = cycle_result d v ∧ bus (world st) = b ++ [pb_end_update].
Proof.
  intros [_ Hphase] Hq%quiescent_true.
  destruct Hphase as [(Hp & _) | [(r & _ & _ & Hp & _) | (_ & Hv & Hb)]];
    [congruence | congruence | done].
Qed.

Lemma cycle_reaches (st : state) (detail : gmap string JS.value) (sched : list nat) :
  pending st = [] →
  in_cycle (PbDocument.merge detail (doc st)) (view st) (bus (world st))
           (after (Refresh detail :: map Settle sched) st).
Proof.
  intros Hidle. rewrite after_cons.
  by apply in_cycle_schedule, in_cycle_refresh.
Qed.

(** The fetches of a cycle settle: two settlements end it. *)
Lemma cycle_terminates (st : state) (detail : gmap string JS.value) :
  pending st = [] →
  quiescent (after (Refresh detail :: map Settle [0; 0]) st) = true.
Proof.
  intros Hidle. apply quiescent_true.
  change (map Settle [0; 0]) with [Settle 0; Settle 0].
  rewrite after_cons, (after_cons (Settle 0)), !after_one. simpl.
  unfold settle. run_comp. rewrite Hidle. simpl.
  destruct (remote _); [destruct (appendFootnotes _)|]; reflexivity.
Qed.

(** One viewer on its own: a refresh event received in the idle state
    starts a cycle that ends, and when its fetches have settled the viewer
    has dispatched exactly one [pb-end-update]. *)
Lemma refresh_cycle_one_terminal_event
    (st : state) (detail : gmap string JS.value) :
  pending st = [] →
  (∃ sched, quiescent (after (Refresh detail :: map Settle sched) st) = true)
  ∧ ∀ sched,
      quiescent (after (Refresh detail :: map Settle sched) st) = true →
      (run (Refresh detail :: map Settle sched) st).1 = Ok tt
      ∧ terminal_events (after (Refresh detail :: map Settle sched) st)
        = terminal_events st + 1.
Proof.
  intros Hidle. split.
  - exists [0; 0]. by apply cycle_terminates.
  - intros sched Hq%quiescent_true. split; [apply run_ok|].
    pose proof (terminal_events_balance (Refresh detail :: map Settle sched) st) as Hbal.
    simpl in Hbal. rewrite refreshes_settles, Hq, Hidle in Hbal. simpl in Hbal. lia.
Qed.

(** C2: when the descriptor points at a resource the endpoint does not
    have, the cycle ends, nothing is thrown, the content region holds the
    text of the [not-found] attribute, and the terminal event is dispatched. *)
Theorem missing_resource_shows_placeholder
    (st : state) (detail : gmap string JS.value) :
  pending st = [] →
  remote (PbDocument.merge detail (doc st)) = None →
  (∃ sched, quiescent (after (Refresh detail :: map Settle sched) st) = true)
  ∧ ∀ sched,
      let st' := after (Refresh detail :: map Settle sched) st in
      quiescent st' = true →
      (run (Refresh detail :: map Settle sched) st).1 = Ok tt
      ∧ notFound (view st') = notFound (view st)
      ∧ contains (content (view st')) (notFound (view st'))
      ∧ phase (view st') = Idle
      ∧ bus (world st') = bus (world st) ++ [pb_end_update].
Proof.
  intros Hidle Hnone. split.
  - exists [0; 0]. by apply cycle_terminates.
  - intros sched st' Hq. split; [apply run_ok|].
    destruct (in_cycle_quiescent _ _ _ _ (cycle_reaches st detail sched Hidle) Hq)
      as [Hv Hb].
    fold st' in Hv, Hb. rewrite Hv, Hb. unfold PbView.cycle_result. rewrite Hnone.
    simpl. repeat split. apply contains_itself.
Qed.

(** C8: in footnote-append mode, when the cycle has ended the footnote
    region is non-empty exactly when the document the descriptor points at
    exists and contains footnote markup. *)
Theorem footnote_region_reflects_source
    (st : state) (detail : gmap string JS.value) (sched : list nat) :
  let st' := after (Refresh detail :: map Settle sched) st in
  pending st = [] →
  appendFootnotes (view st) = true →
  quiescent st' = true →
  footnotes (view st') ≠ ""
  ↔ ∃ r, remote (PbDocument.merge detail (doc st)) = Some r ∧ notes r ≠ "".
Proof.
  intros st' Hidle Haf Hq.
  destruct (in_cycle_quiescent _ _ _ _ (cycle_reaches st detail sched Hidle) Hq)
    as [Hv _].
  fold st' in Hv. rewrite Hv. unfold PbView.cycle_result.
  destruct (remote _) as [r|]; simpl.
  - rewrite Haf. split; [by exists r | by intros (r' & [= <-] & Hn)].
  - split; [done | by intros (r' & [=] & _)].
Qed.

End View.

(** ** pb-view: several viewers on one document *)

Section ViewPage.
Import PbView.

Variable remote : gmap string JS.value → option source_document.

#[local] Abbreviation settle := (settle remote).
#[local] Abbreviation page_step := (page_step remote).
#[local] Abbreviation page_run := (page_run remote).
#[local] Abbreviation page_after := (page_after remote).

Lemma page_after_cons (a : page_action) (acts : list page_action) (pg : page_state) :
  page_after (a :: acts) pg = page_after acts (page_step a pg).2.
Proof. by destruct a. Qed.

Lemma page_run_ok (acts : list page_action) (pg : page_state) :
  (page_run acts pg).1 = Ok tt.
Proof.
  revert pg. induction acts as [|a acts IH]; intros pg; [done|].
  destruct a; apply IH.
Qed.

Lemma settle_balance (i : nat) (st : state) :
  terminal_events (settle i st).2 + length (pending (settle i st).2)
  = terminal_events st + length (pending st).
Proof.
  pose proof (terminal_events_balance remote [Settle i] st) as Hbal.
  rewrite after_one in Hbal. simpl in Hbal. lia.
Qed.

Lemma settle_doc (i : nat) (st : state) : doc (settle i st).2 = doc st.
Proof.
  unfold PbView.settle. run_comp.
  destruct (pending st !! i) as [[d | d]|]; try reflexivity.
  destruct (remote d); [destruct (appendFootnotes (view st))|]; reflexivity.
Qed.

(** Settling the oldest request of a viewer brings it closer to idle. *)
Lemma settle_weight (st : state) (r : request) (rest : list request) :
  pending st = r :: rest →
  sum_list_with request_weight (pending (settle 0 st).2)
  < sum_list_with request_weight (pending st).
Proof.
  intros Hp. unfold PbView.settle. run_comp. rewrite Hp. simpl.
  destruct r as [d | d]; simpl; [|lia].
  destruct (remote d); [destruct (appendFootnotes (view st))|]; simpl; try lia.
  rewrite sum_list_with_app. simpl. lia.
Qed.

Lemma sum_list_with_insert {A} (f : A → nat) (l : list A) (k : nat) (x y : A) :
  l !! k = Some x →
  sum_list_with f (<[k:=y]> l) + f x = sum_list_with f l + f y.
Proof.
  revert k. induction l as [|a l IH]; intros [|k] Hk; simplify_eq/=; [lia|].
  specialize (IH k Hk). lia.
Qed.

Lemma page_settle_balance (k i : nat) (pg : page_state) :
  let pg' := (page_step (PageSettle k i) pg).2 in
  page_terminal_events pg' + page_pending pg'
  = page_terminal_events pg + page_pending pg
  ∧ length (pg_views pg') = length (pg_views pg).
Proof.
  simpl. destruct (pg_views pg !! k) as [bv|] eqn:Hk; [|done].
  unfold page_pending. simpl. rewrite length_insert. split; [|done].
  pose proof (settle_balance i (view_state pg bv)) as Hbal.
  pose proof (sum_list_with_insert (λ bv, length (bv_pending bv)) _ k bv
                (bound_view_of (settle i (view_state pg bv)).2) Hk) as Hsum.
  unfold terminal_events, page_terminal_events in *. simpl in *. lia.
Qed.

Lemma settlements_balance (sched : list (nat * nat)) (pg : page_state) :
  let pg' := page_after (settlements sched) pg in
  page_terminal_events pg' + page_pending pg'
  = page_terminal_events pg + page_pending pg
  ∧ length (pg_views pg') = length (pg_views pg).
Proof.
  revert pg. induction sched as [|[k i] sched IH]; intros pg; [done|].
  simpl. change (settlements ((k, i) :: sched))
    with (PageSettle k i :: settlements sched).
  rewrite page_after_cons.
  destruct (IH (page_step (PageSettle k i) pg).2) as [Hbal Hlen].
  destruct (page_settle_balance k i pg) as [Hbal' Hlen'].
  simpl in *. split; lia.
Qed.

Lemma page_refresh_pending (detail : gmap string JS.value) (pg : page_state) :
  let pg' := (page_step (PageRefresh detail) pg).2 in
  page_terminal_events pg' = page_terminal_events pg
  ∧ page_pending pg' = page_pending pg + length (pg_views pg)
  ∧ length (pg_views pg') = length (pg_views pg).
Proof.
  simpl. split; [done|]. unfold page_pending. simpl.
  split; [|by rewrite length_map].
  induction (pg_views pg) as [|bv l IH]; [done|].
  simpl in *. rewrite length_app, IH. simpl. lia.
Qed.

Lemma page_quiescent_pending (pg : page_state) :
  page_quiescent pg = true → page_pending pg = 0.
Proof.
  unfold page_quiescent, page_pending. rewrite bool_decide_eq_true.
  induction 1 as [|bv l Hbv _ IH]; [done|]. simpl. by rewrite Hbv, IH.
Qed.

(** When the fetches in flight settle, the page comes to rest. *)
Lemma page_settles (n : nat) (pg : page_state) :
  page_weight pg ≤ n →
  ∃ sched, page_quiescent (page_after (settlements sched) pg) = true.
Proof.
  revert pg. induction n as [|n IH]; intros pg Hw;
    (destruct (page_quiescent pg) eqn:Hq; [by exists []|]);
    apply bool_decide_eq_false in Hq;
    apply not_Forall_Exists, Exists_exists in Hq as (bv & Hin & Hne);
      try (intros ?; apply _);
    apply list_elem_of_lookup in Hin as [k Hk];
    simpl in Hne;
    (destruct (bv_pending bv) as [|r rest] eqn:Hp; [done|]);
    pose proof (settle_weight (view_state pg bv) r rest Hp) as Hlt;
    pose proof (sum_list_with_insert
                  (λ bv, sum_list_with request_weight (bv_pending bv)) _ k bv
                  (bound_view_of (settle 0 (view_state pg bv)).2) Hk) as Hsum;
    assert (Hstep : page_weight (page_step (PageSettle k 0) pg).2 < page_weight pg)
      by (unfold page_weight; simpl; rewrite Hk; simpl in *; lia).
  - lia.
  - destruct (IH (page_step (PageSettle k 0) pg).2) as [sched Hsched]; [lia|].
    exists ((k, 0) :: sched).
    change (settlements ((k, 0) :: sched))
      with (PageSettle k 0 :: settlements sched).
    by rewrite page_after_cons.
Qed.

(** C1 (as amended): on a page whose viewers are idle, a refresh event
    (whatever its detail, so also one naming the id of the document) starts
    one cycle in every viewer bound to the descriptor. The cycles end, and
    when all fetches have settled the shared document has seen exactly one
    more [pb-end-update] for each of those viewers: as many as viewers
    reference the descriptor, exactly one when exactly one does. *)
Theorem refresh_one_terminal_event_per_viewer
    (pg : page_state) (detail : gmap string JS.value) :
  Forall (λ bv, bv_pending bv = []) (pg_views pg) →
  (∃ sched,
     page_quiescent (page_after (PageRefresh detail :: settlements sched) pg) = true)
  ∧ ∀ sched,
      page_quiescent (page_after (PageRefresh detail :: settlements sched) pg) = true →
      (page_run (PageRefresh detail :: settlements sched) pg).1 = Ok tt
      ∧ page_terminal_events (page_after (PageRefresh detail :: settlements sched) pg)
        = page_terminal_events pg + length (pg_views pg).
Proof.
  intros Hidle. split.
  - destruct (page_settles _ (page_step (PageRefresh detail) pg).2 (le_n _))
      as [sched Hsched].
    exists sched. by rewrite page_after_cons.
  - intros sched Hq. split; [apply page_run_ok|].
    rewrite page_after_cons in *.
    apply page_quiescent_pending in Hq.
    destruct (settlements_balance sched (page_step (PageRefresh detail) pg).2)
      as [Hbal _].
    destruct (page_refresh_pending detail pg) as (Hev & Hpend & _).
    assert (Hzero : page_pending pg = 0).
    { apply page_quiescent_pending. by apply bool_decide_eq_true. }
    simpl in *. lia.
Qed.

End ViewPage.

(** ** The theorems at the pages of the test suite *)

Section Instances.
Import PbSelect.


Lemma default_endpoint_is_current_context_witness :
  endpoint PbPage.constructor = "."
  ∧ _loadRemote_base example_connected
    = (Ok (location_href (world example_connected)), example_connected)
  ∧ ∃ params st',
      _getParameters encode_plain example_connected = (Ok params, example_connected)
      ∧ _loadRemote encode_plain resolve_relative example_connected
        = (Ok (Some (with_parameters
                       "http://localhost:8080/app/api/items" params)), st')
      ∧ requests (world st')
        = requests (world example_connected)
          ++ [with_parameters "http://localhost:8080/app/api/items" params].
Proof.
  apply (default_endpoint_is_current_context encode_plain resolve_relative
           example_connected "api/items").
  - reflexivity.
  - reflexivity.
  - discriminate.
  - reflexivity.
Defined.

Lemma endpoint_resolved_at_request_time_witness :
  let e := "http://localhost:8080/exist/apps/tei-publisher" in
  let st1 := (_loadRemote encode_plain resolve_relative example_connected).2 in
  let st2 := on_world (λ w, env_set_page (PbPage.set_endpoint e (page w)) w) st1 in
  ∃ params st3,
    _getParameters encode_plain st2 = (Ok params, st2)
    ∧ _loadRemote encode_plain resolve_relative st2
      = (Ok (Some (with_parameters
                     "http://localhost:8080/exist/apps/tei-publisher/api/items"
                     params)), st3)
    ∧ requests (world st3)
      = requests (world st2)
        ++ [with_parameters
              "http://localhost:8080/exist/apps/tei-publisher/api/items" params].
Proof.
  apply (endpoint_resolved_at_request_time encode_plain resolve_relative
           example_connected "http://localhost:8080/exist/apps/tei-publisher"
           "api/items").
  - reflexivity.
  - discriminate.
  - reflexivity.
Defined.

(** The two requests of that scenario. *)
Example requests_follow_endpoint :
  let e := "http://localhost:8080/exist/apps/tei-publisher" in
  let st1 := (_loadRemote encode_plain resolve_relative example_connected).2 in
  let st2 := on_world (λ w, env_set_page (PbPage.set_endpoint e (page w)) w) st1 in
  requests (world (_loadRemote encode_plain resolve_relative st2).2)
  = ["http://localhost:8080/app/api/items?q=x y";
     "http://localhost:8080/exist/apps/tei-publisher/api/items?q=x y"].
Proof. reflexivity. Qed.

(** A response that is JSON but not an array: [_clear] has run before
    [forEach] fails, so the static options are gone while [_items] is kept. *)
Example malformed_response_clears_options :
  let st := (_loadRemote_settled "u" (Responded (Some (JS.JObject [])))
               example_connected).2 in
  children (this st) = [Node "subform" [("q", "x y")]; Input 0]
  ∧ _items (this st) = _items (this example_connected)
  ∧ console (world st) = [ConsoleError "<pb-select> request to %s failed" [ArgStr "u"]].
Proof. by vm_compute. Qed.

Example loads_items :
  let json := JS.JArray [JS.JObject [("text", JS.JString "English");
                                      ("value", JS.JString "en")]] in
  _items (this (_loadRemote_settled "u" (Responded (Some json)) example_connected).2)
  = [Item (Some (JS.JString "English")) (Some (JS.JString "en"))].
Proof. reflexivity. Qed.

Import PbView.

Lemma refresh_one_terminal_event_per_viewer_witness :
  let detail : gmap string JS.value := {[ "id" := JS.Str "document1" ]} in
  (∃ sched,
     page_quiescent (page_after example_remote
                       (PageRefresh detail :: settlements sched) example_page) = true)
  ∧ ∀ sched,
      page_quiescent (page_after example_remote
                        (PageRefresh detail :: settlements sched) example_page) = true →
      (page_run example_remote (PageRefresh detail :: settlements sched) example_page).1
      = Ok tt
      ∧ page_terminal_events (page_after example_remote
                                (PageRefresh detail :: settlements sched) example_page)
        = page_terminal_events example_page + length (pg_views example_page).
Proof.
  apply (refresh_one_terminal_event_per_viewer example_remote example_page
           {[ "id" := JS.Str "document1" ]}).
  repeat constructor.
Defined.

(** C1 (as stated) fails: two viewers reference [document1]; after one
    refresh event naming it, when the three fetches have settled, two
    terminal events have been dispatched on the shared document, not one. *)
Lemma two_viewers_two_terminal_events :
  let detail : gmap string JS.value := {[ "id" := JS.Str "document1" ]} in
  let pg := page_after example_remote
              (PageRefresh detail :: settlements [(0, 0); (0, 0); (1, 0)])
              example_page in
  Forall (λ bv, bv_pending bv = []) (pg_views example_page)
  ∧ page_quiescent pg = true
  ∧ page_terminal_events pg = page_terminal_events example_page + 2
  ∧ page_terminal_events pg ≠ page_terminal_events example_page + 1.
Proof.
  split; [repeat constructor|].
  split; [by vm_compute|].
  split; [by vm_compute|].
  vm_compute. discriminate.
Qed.

Lemma missing_resource_shows_placeholder_witness :
  let detail : gmap string JS.value := {[ "path" := JS.Str "xxx/yyy.xml" ]} in
  (∃ sched, quiescent (after example_remote (Refresh detail :: map Settle sched)
                             example_state) = true)
  ∧ ∀ sched,
      let st' := after example_remote (Refresh detail :: map Settle sched)
                       example_state in
      quiescent st' = true →
      (run example_remote (Refresh detail :: map Settle sched) example_state).1 = Ok tt
      ∧ notFound (view st') = notFound (view example_state)
      ∧ contains (content (view st')) (notFound (view st'))
      ∧ phase (view st') = Idle
      ∧ bus (world st') = bus (world example_state) ++ [pb_end_update].
Proof.
  apply (missing_resource_shows_placeholder example_remote example_state
           {[ "path" := JS.Str "xxx/yyy.xml" ]}).
  - reflexivity.
  - vm_compute. reflexivity.
Defined.

Lemma footnote_region_reflects_source_witness :
  let detail : gmap string JS.value :=
    {[ "path" := JS.Str "test/orlik_to_serafin.xml"; "odd" := JS.Str "serafin" ]} in
  let st' := after example_remote (Refresh detail :: map Settle [0; 0])
                   example_state in
  footnotes (view st') ≠ ""
  ↔ ∃ r, example_remote (PbDocument.merge detail (doc example_state)) = Some r
         ∧ notes r ≠ "".
Proof.
  apply (footnote_region_reflects_source example_remote example_state
           {[ "path" := JS.Str "test/orlik_to_serafin.xml";
              "odd" := JS.Str "serafin" ]} [0; 0]).
  - reflexivity.
  - reflexivity.
  - vm_compute. reflexivity.
Defined.

(** The three pages of the test suite, each run until its fetches have
    settled. *)
Example shows_documentation :
  let st := after example_remote [Refresh ∅; Settle 0; Settle 0] example_state in
  content (view st) = "<h1>Introduction</h1>" ∧ footnotes (view st) = ""
  ∧ bus (world st) = [pb_end_update].
Proof. by vm_compute. Qed.

Example shows_placeholder :
  let st := after example_remote
              [Refresh {[ "path" := JS.Str "xxx/yyy.xml" ]}; Settle 0] example_state in
  content (view st) = "Not found" ∧ bus (world st) = [pb_end_update].
Proof. by vm_compute. Qed.

Example shows_footnotes :
  let st := after example_remote
              [Refresh {[ "path" := JS.Str "test/orlik_to_serafin.xml" ]};
               Settle 0; Settle 0] example_state in
  content (view st) = "<div>Orlik</div>"
  ∧ footnotes (view st) = "<dl><dt>1</dt><dd>brata</dd></dl>"
  ∧ bus (world st) = [pb_end_update].
Proof. by vm_compute. Qed.

End Instances.

(** * Further properties of pb-select *)

(** ** Clearing the static options *)

Section SelectClear.
Import PbSelect.

Lemma clear_spec (st : state) :
  _clear st
  = (Ok tt, if rendered (this st)
            then on_this (set_children
                   (filter (λ c, slot_of (world st) c ≠ "") (children (this st)))) st
            else st).
Proof. unfold _clear, assignedNodes. run_comp. by destruct (rendered (this st)). Qed.

Lemma filter_default_slot_gone (w : env) (l : list child) :
  filter (λ c, slot_of w c = "") (filter (λ c, slot_of w c ≠ "") l) = [].
Proof.
  rewrite list_filter_filter.
  induction l as [|c l IH]; [done|].
  rewrite filter_cons_False by tauto. exact IH.
Qed.

(** X1: once the template is rendered, [_clear] removes from the element
    exactly the children assigned to the default slot, keeping the others
    in their order: afterwards the default slot is empty and every other
    slot has the nodes it had. Nothing but the list of children changes:
    every other property of the element and the whole environment are as
    before. *)
Theorem clear_empties_default_slot_only (st : state) :
  rendered (this st) = true →
  ∃ st', _clear st = (Ok tt, st')
    ∧ this st'
      = set_children (filter (λ c, slot_of (world st) c ≠ "") (children (this st)))
                     (this st)
    ∧ world st' = world st
    ∧ (∀ c, c ∈ children (this st')
            ↔ c ∈ children (this st) ∧ slot_of (world st) c ≠ "")
    ∧ assignedNodes "" st' = Some []
    ∧ (∀ slot, slot ≠ "" → assignedNodes slot st' = assignedNodes slot st).
Proof.
  intros Hr. rewrite clear_spec, Hr. eexists. split; [reflexivity|]. simpl.
  split; [done|]. split; [done|]. split; [|split].
  - intros c. rewrite list_elem_of_filter. tauto.
  - unfold assignedNodes. simpl. rewrite Hr. by rewrite filter_default_slot_gone.
  - intros slot Hslot. unfold assignedNodes. simpl. rewrite Hr. f_equal.
    apply list_filter_filter_l. intros c ->. done.
Qed.

(** X2: clearing twice is clearing once, and before the first render
    [_clear] finds no slot and does nothing. *)
Theorem clear_idempotent (st : state) :
  _clear (_clear st).2 = (Ok tt, (_clear st).2)
  ∧ (if rendered (this st) then True else _clear st = (Ok tt, st)).
Proof.
  rewrite !clear_spec. destruct (rendered (this st)) eqn:Hr; simpl.
  - rewrite Hr. split; [|done]. f_equal. unfold on_this. simpl. f_equal.
    unfold set_children. simpl. f_equal.
    apply list_filter_filter_r. tauto.
  - by rewrite Hr.
Qed.

End SelectClear.

(** ** The response of a request *)

Section SelectResponse.
Import PbSelect.

Lemma collect_items_cons (j : JS.json) (l : list JS.json) :
  collect_items (j :: l)
  = match JS.get_prop j "text", JS.get_prop j "value", collect_items l with
    | inr text, inr value, inr items => inr (Item text value :: items)
    | inl e, _, _ => inl e
    | inr _, inl e, _ => inl e
    | inr _, inr _, inl e => inl e
    end.
Proof.
  simpl. destruct (JS.get_prop j "text"), (JS.get_prop j "value"); try done.
Qed.

Lemma get_prop_null (j : JS.json) (k : string) :
  (∃ e, JS.get_prop j k = inl e) ↔ j = JS.JNull.
Proof.
  split.
  - intros [e He]. by destruct j.
  - intros ->. by eexists.
Qed.

(** X3: the items built from a response array: the conversion fails
    exactly when an entry of the array is [null]; when it succeeds there is
    one item for each entry, in the order of the array, whose label and
    value are the [text] and the [value] property of the entry. *)
Theorem collect_items_entries (l : list JS.json) :
  ((∃ e, collect_items l = inl e) ↔ JS.JNull ∈ l)
  ∧ ∀ items, collect_items l = inr items →
      Forall2 (λ j it, JS.get_prop j "text" = inr (item_label it)
                       ∧ JS.get_prop j "value" = inr (item_value it)) l items.
Proof.
  induction l as [|j l [IHerr IHok]].
  - split.
    + split; [by intros [e He] | by intros ?%elem_of_nil].
    + intros items [= <-]. constructor.
  - rewrite collect_items_cons. split.
    + rewrite elem_of_cons. split.
      * intros [e He].
        destruct (JS.get_prop j "text") as [e1|text] eqn:Ht.
        { left. symmetry. apply (get_prop_null j "text"). by eexists. }
        destruct (JS.get_prop j "value") as [e2|value] eqn:Hv.
        { left. symmetry. apply (get_prop_null j "value"). by eexists. }
        destruct (collect_items l) as [e3|items]; [|done].
        right. apply IHerr. by eexists.
      * intros [<- | Hin]; [by eexists|].
        apply IHerr in Hin as [e He]. rewrite He.
        destruct (JS.get_prop j "text"), (JS.get_prop j "value"); by eexists.
    + intros items Hitems.
      destruct (JS.get_prop j "text") as [e1|text] eqn:Ht; [done|].
      destruct (JS.get_prop j "value") as [e2|value] eqn:Hv; [done|].
      destruct (collect_items l) as [e3|items'] eqn:Hl; [done|].
      injection Hitems as <-. constructor; [done|]. by apply IHok.
Qed.

Lemma settled_json (url : string) (j : JS.json) (st : state) :
  _loadRemote_settled url (Responded (Some j)) st
  = match items_of_json j with
    | inr items =>
        (Ok tt, on_this (set__items items)
                  (on_world (env_log (ConsoleLog "<pb-select> loaded %d items"
                                        [ArgNum (length items)])) (_clear st).2))
    | inl _ =>
        (Ok tt, on_world (env_log (ConsoleError "<pb-select> request to %s failed"
                                     [ArgStr url])) (_clear st).2)
    end.
Proof.
  unfold _loadRemote_settled. run_comp. rewrite clear_spec.
  by destruct (items_of_json j).
Qed.

Lemma filter_slot_env_log (e : log_entry) (w : env) (slot : string) (l : list child) :
  filter (λ c, slot_of (env_log e w) c = slot) l
  = filter (λ c, slot_of w c = slot) l.
Proof. apply list_filter_iff. by intros []. Qed.

(** X4: a response whose JSON is an array without [null] entries replaces
    the options of a rendered select: the options shown afterwards are the
    loaded items and nothing else, whatever was slotted or loaded before;
    one line is logged, and the value and the hidden input are untouched. *)
Theorem load_success_replaces_options
    (url : string) (j : JS.json) (items : list item) (st : state) :
  rendered (this st) = true →
  items_of_json j = inr items →
  ∃ st', _loadRemote_settled url (Responded (Some j)) st = (Ok tt, st')
    ∧ _items (this st') = items
    ∧ options st' = Loaded <$> items
    ∧ console (world st')
      = console (world st)
        ++ [ConsoleLog "<pb-select> loaded %d items" [ArgNum (length items)]]
    ∧ inputs (world st') = inputs (world st)
    ∧ _value (this st') = _value (this st)
    ∧ _hidden (this st') = _hidden (this st).
Proof.
  intros Hr Hitems. rewrite settled_json, Hitems, clear_spec, Hr.
  eexists. split; [reflexivity|]. simpl. split; [done|]. split; [|done].
  unfold options. simpl.
  by rewrite filter_slot_env_log, filter_default_slot_gone.
Qed.

(** X5: a response that is JSON but cannot be turned into items (not an
    array, or an array with a [null] entry) is reported as a failed request,
    yet [_clear] has already run: the slotted options of a rendered select
    are gone while the previously loaded items stay. *)
Theorem load_malformed_clears_slotted_options
    (url : string) (j : JS.json) (e : JS.exn) (st : state) :
  rendered (this st) = true →
  items_of_json j = inl e →
  ∃ st', _loadRemote_settled url (Responded (Some j)) st = (Ok tt, st')
    ∧ _items (this st') = _items (this st)
    ∧ options st' = Loaded <$> _items (this st)
    ∧ console (world st')
      = console (world st)
        ++ [ConsoleError "<pb-select> request to %s failed" [ArgStr url]].
Proof.
  intros Hr Hitems. rewrite settled_json, Hitems, clear_spec, Hr.
  eexists. split; [reflexivity|]. simpl. split; [done|]. split; [|done].
  unfold options. simpl.
  by rewrite filter_slot_env_log, filter_default_slot_gone.
Qed.

(** X6: however a request settles, the handlers throw nothing and write
    exactly one line to the console; the value of the element, its hidden
    input, the input elements, the requests issued and the events
    dispatched are as before. *)
Theorem settled_never_throws (url : string) (o : fetch_outcome) (st : state) :
  ∃ st', _loadRemote_settled url o st = (Ok tt, st')
    ∧ length (console (world st')) = S (length (console (world st)))
    ∧ _value (this st') = _value (this st)
    ∧ _hidden (this st') = _hidden (this st)
    ∧ inputs (world st') = inputs (world st)
    ∧ requests (world st') = requests (world st)
    ∧ bus (world st') = bus (world st)
    ∧ dispatched (this st') = dispatched (this st).
Proof.
  destruct o as [|[j|]].
  - eexists. split; [reflexivity|]. simpl. rewrite length_app. simpl.
    repeat split; lia.
  - rewrite settled_json, clear_spec.
    destruct (items_of_json j), (rendered (this st));
      (eexists; split; [reflexivity|]); simpl; rewrite length_app; simpl;
      repeat split; lia.
  - eexists. split; [reflexivity|]. simpl. rewrite length_app. simpl.
    repeat split; lia.
Qed.

End SelectResponse.

(** ** Building the request *)

Section SelectRequest.
Import PbSelect.

Variable encodeURIComponent : string → string.
Variable resolveURL : string → string → option string.

#[local] Abbreviation _getParameters := (_getParameters encodeURIComponent).
#[local] Abbreviation _loadRemote := (_loadRemote encodeURIComponent resolveURL).

Lemma has_query_cons (c : Ascii.ascii) (s : string) :
  has_query (String c s) = bool_decide (String c "" = "?") || has_query s.
Proof.
  unfold has_query.
  change (String.index 0 "?" (String c s))
    with (if String.prefix "?" (String c s) then Some 0
          else match String.index 0 "?" s with
               | Some n => Some (S n)
               | None => None
               end).
  destruct (String.prefix "?" (String c s)) eqn:Hp.
  - apply String.prefix_correct in Hp. simpl in Hp.
    injection Hp as Hc _. subst c.
    by rewrite bool_decide_eq_true_2.
  - rewrite bool_decide_eq_false_2.
    + simpl. by destruct (String.index 0 "?" s).
    + intros [= ->]. apply not_true_iff_false in Hp. apply Hp.
      apply String.prefix_correct. simpl. by destruct s.
Qed.

Lemma has_query_app (a b : string) :
  has_query (a +:+ b) = has_query a || has_query b.
Proof.
  induction a as [|c a IH]; [reflexivity|].
  change (String c a +:+ b) with (String c (a +:+ b)).
  rewrite !has_query_cons, IH. by rewrite orb_assoc.
Qed.

Lemma with_parameters_has_query (url params : string) :
  has_query (with_parameters url params) = true.
Proof.
  unfold with_parameters. destruct (has_query url) eqn:Hq.
  - by rewrite has_query_app, Hq.
  - rewrite !has_query_app. change (has_query "?") with true.
    simpl. by rewrite orb_true_r.
Qed.

(** The parameters are those of the subform, whatever else the element
    holds. *)
Lemma getParameters_spec (st : state) :
  _getParameters st
  = (Ok (if rendered (this st)
         then join "&" (flat_map (λ c, map (λ input, input.1 +:+ "=" +:+
                                             encodeURIComponent input.2)
                                        (subform_inputs c))
                                 (children (this st)))
         else ""), st).
Proof.
  unfold PbSelect._getParameters, assignedNodes. run_comp.
  destruct (rendered (this st)); [|reflexivity].
  do 3 f_equal.
  induction (children (this st)) as [|c l IH]; [reflexivity|].
  rewrite filter_cons. simpl. rewrite <- IH.
  destruct c as [slot named | h]; simpl.
  - by repeat case_decide.
  - by case_decide.
Qed.

(** X7: [_loadRemote] does all or nothing. Without a source (undefined,
    null or empty) it returns at once; when the URL cannot be built it
    throws, and in both cases the state is as before. Otherwise it logs
    one line and issues one request, for a URL that has a query part, and
    leaves the element, the input elements and the events alone. *)
Theorem loadRemote_all_or_nothing (st : state) :
  match _loadRemote st with
  | (Ok None, st') => JS.truthy (source (this st)) = false ∧ st' = st
  | (Throw e, st') => JS.truthy (source (this st)) = true ∧ st' = st
  | (Ok (Some url), st') =>
      JS.truthy (source (this st)) = true
      ∧ has_query url = true
      ∧ this st' = this st
      ∧ requests (world st') = requests (world st) ++ [url]
      ∧ console (world st')
        = console (world st) ++ [ConsoleLog "<pb-select> loading items from %s" [ArgStr url]]
      ∧ inputs (world st') = inputs (world st)
      ∧ bus (world st') = bus (world st)
      ∧ page (world st') = page (world st)
  end.
Proof.
  unfold PbSelect._loadRemote. unfold bind at 1. unfold gets at 1.
  destruct (JS.truthy (source (this st))) eqn:Hsrc; [|by simpl].
  unfold bind at 1. rewrite loadRemote_base_spec.
  destruct (resolveURL _ _) as [u|]; [|done].
  unfold ret at 1. unfold bind at 1. unfold bind at 1.
  rewrite getParameters_spec.
  simpl. by rewrite with_parameters_has_query.
Qed.

(** X8: the query of a request is built from the subform alone: clearing
    the static options, connecting the element (which adds the hidden
    input) or assigning its value leaves the parameters as they were. *)
Theorem getParameters_of_subform_only (st : state) (v : JS.value) :
  (_getParameters (_clear st).2).1 = (_getParameters st).1
  ∧ (_getParameters (connectedCallback st).2).1 = (_getParameters st).1
  ∧ (_getParameters (set_value v st).2).1 = (_getParameters st).1.
Proof.
  rewrite !getParameters_spec. simpl. split; [|split].
  - rewrite clear_spec. destruct (rendered (this st)) eqn:Hr; simpl; rewrite Hr; [|done].
    do 2 f_equal.
    induction (children (this st)) as [|c l IH]; [reflexivity|].
    rewrite filter_cons. case_decide as Hslot; simpl; rewrite IH; [done|].
    destruct c as [slot named | h]; simpl; [|done].
    simpl in Hslot. by rewrite Hslot.
  - destruct (rendered (this st)); [|done].
    by rewrite flat_map_app, app_nil_r.
  - unfold set_value. run_comp. by destruct (_hidden (this st)).
Qed.

(** X9: without a named input in the subform (or before the first render)
    the parameters are the empty string, so the URL requested is the
    resolved source followed by a bare [?], or by a bare [&] when the
    source has a query of its own. *)
Theorem loadRemote_without_subform (st : state) (src base u : string) :
  Forall (λ c, subform_inputs c = []) (children (this st)) →
  source (this st) = JS.Str src →
  src ≠ "" →
  _loadRemote_base st = (Ok base, st) →
  resolveURL src base = Some u →
  _getParameters st = (Ok "", st)
  ∧ (_loadRemote st).1
    = Ok (Some (if has_query u then u +:+ "&" else u +:+ "?")).
Proof.
  intros Hnone Hsrc Hne Hbase Hu.
  assert (Hp : _getParameters st = (Ok "", st)).
  { rewrite getParameters_spec. destruct (rendered (this st)); [|done].
    do 2 f_equal.
    induction Hnone as [|c l Hc _ IH]; [done|].
    cbn [flat_map]. rewrite Hc. exact IH. }
  split; [done|].
  unfold PbSelect._loadRemote. unfold bind at 1. unfold gets at 1.
  rewrite Hsrc. simpl. rewrite bool_decide_eq_false_2 by done. simpl.
  unfold bind at 1. rewrite Hbase, Hu.
  unfold ret at 1. unfold bind at 1. unfold bind at 1. rewrite Hp. simpl.
  unfold with_parameters. by destruct (has_query u).
Qed.

End SelectRequest.

(** ** The hidden input over the life of the element *)

Section SelectHidden.
Import PbSelect.

Lemma set_value_spec (v : JS.value) (st : state) :
  set_value v st
  = (Ok tt,
     State (requestUpdate "value" (_value (this st)) (set__value v (this st)))
           (match _hidden (this st) with
            | Some h => env_set_inputs (store_input_value h v (inputs (world st)))
                                       (world st)
            | None => world st
            end)).
Proof.
  unfold set_value. run_comp. destruct (_hidden (this st)); [done|].
  by destruct st as [s w].
Qed.

Lemma changed_spec (ev : dom_event) (st : state) :
  _changed ev st
  = match _hidden (this st) with
    | None => (Throw (JS.TypeError "Cannot read properties of undefined"), st)
    | Some h =>
        if rendered (this st) then
          if JS.strict_eq
               (JS.Str (from_option input_value "" (inputs (world st) !! h)))
               (list_selected (this st))
          then (Ok (preventDefault ev), st)
          else (Ok (preventDefault ev),
                on_this (dispatchEvent "change")
                  (on_world (λ w, env_set_inputs
                     (store_input_value h (list_selected (this st)) (inputs w)) w) st))
        else (Throw (JS.TypeError "Cannot read properties of null"), st)
    end.
Proof.
  unfold _changed. run_comp.
  destruct (_hidden (this st)); [|done].
  destruct (rendered (this st)); [|done].
  by destruct (JS.strict_eq _ _).
Qed.

(** X10: a value assigned before the element is connected creates no
    input; connecting then creates the hidden input, of type [hidden], in
    the [output] slot, named after the element, holding that value, and
    appends it as the last child. *)
Theorem value_reaches_hidden_on_connect (v : JS.value) (st : state) :
  let st1 := (set_value v st).2 in
  let st2 := (connectedCallback st1).2 in
  let n := length (inputs (world st)) in
  length (inputs (world st1)) = n
  ∧ _hidden (this st2) = Some n
  ∧ inputs (world st2) !! n
    = Some (InputElement "hidden" (JS.to_DOMString (name (this st)))
                         (JS.to_input_value v) "output")
  ∧ children (this st2) = children (this st) ++ [Input n]
  ∧ length (inputs (world st2)) = S n.
Proof.
  intros st1 st2 n.
  assert (Hlen : length (inputs (world st1)) = n).
  { unfold st1. rewrite set_value_spec. simpl.
    destruct (_hidden (this st)); simpl; [apply store_input_value_length | done]. }
  split; [done|]. unfold st2. simpl. rewrite Hlen.
  split; [done|]. split; [|split].
  - rewrite lookup_app_r, Hlen, Nat.sub_diag by lia.
    unfold st1. by rewrite set_value_spec.
  - unfold st1. by rewrite set_value_spec.
  - rewrite length_app, Hlen. simpl. lia.
Qed.

(** X11: connecting the element again creates another hidden input and
    leaves the earlier one among the children; an assignment to [value]
    afterwards reaches the new input only, the earlier one keeps the value
    it had. *)
Theorem reconnect_duplicates_hidden (v : JS.value) (st : state) :
  let st1 := (connectedCallback st).2 in
  let st2 := (connectedCallback st1).2 in
  let st3 := (set_value v st2).2 in
  let n := length (inputs (world st)) in
  children (this st3) = children (this st) ++ [Input n; Input (S n)]
  ∧ _hidden (this st3) = Some (S n)
  ∧ input_value <$> inputs (world st3) !! n
    = Some (JS.to_input_value (_value (this st)))
  ∧ input_value <$> inputs (world st3) !! S n = Some (JS.to_input_value v)
  ∧ input_name <$> inputs (world st3) !! n
    = input_name <$> inputs (world st3) !! S n.
Proof.
  intros st1 st2 st3 n. unfold st3. rewrite set_value_spec. simpl.
  rewrite length_app. simpl. replace (length (inputs (world st)) + 1) with (S n) by (unfold n; lia).
  split; [by rewrite <- app_assoc|]. split; [done|].
  unfold store_input_value.
  rewrite list_lookup_alter_ne by lia.
  rewrite list_lookup_alter_eq.
  rewrite lookup_app_l by (rewrite length_app; simpl; unfold n; lia).
  rewrite lookup_app_r by (unfold n; lia).
  rewrite lookup_app_r by (rewrite length_app; simpl; unfold n; lia).
  rewrite length_app. simpl.
  replace (n - length (inputs (world st))) with 0 by (unfold n; lia).
  replace (S n - (length (inputs (world st)) + 1)) with 0 by (unfold n; lia).
  done.
Qed.

End SelectHidden.

(** ** Selecting *)

Section SelectChanged.
Import PbSelect.

(** X12: for a selection that is a string, handling the same selection
    again changes nothing: the second [_changed] finds the hidden input
    equal to the selection and returns without an event. *)
Theorem changed_again_is_silent
    (st : state) (h : nat) (s : string) (ev ev' : dom_event) :
  _hidden (this st) = Some h →
  h < length (inputs (world st)) →
  rendered (this st) = true →
  list_selected (this st) = JS.Str s →
  let st1 := (_changed ev st).2 in
  _changed ev' st1 = (Ok (preventDefault ev'), st1)
  ∧ input_value <$> inputs (world st1) !! h = Some s.
Proof.
  intros Hh Hlt Hr Hsel st1. unfold st1.
  rewrite (changed_spec ev st), Hh, Hr, Hsel. unfold JS.strict_eq.
  destruct (lookup_lt_is_Some_2 _ _ Hlt) as [i Hi].
  case_bool_decide as Heq; simpl.
  - rewrite changed_spec, Hh, Hr, Hsel. unfold JS.strict_eq.
    rewrite bool_decide_eq_true_2 by done. split; [done|].
    rewrite Hi in *. simpl in *. congruence.
  - rewrite changed_spec. simpl. rewrite Hh, Hr, Hsel. unfold JS.strict_eq.
    pose proof (store_input_value_lookup h (JS.Str s) _ Hlt) as Hv.
    destruct (store_input_value h (JS.Str s) (inputs (world st)) !! h) as [i'|] eqn:Hi';
      [|done].
    simpl in Hv. injection Hv as Hv.
    rewrite bool_decide_eq_true_2 by (simpl; congruence).
    split; [done|]. simpl. by rewrite Hv.
Qed.

Lemma select_item_spec (v : JS.value) (ev : dom_event) (st : state) :
  select_item v ev st
  = _changed ev (on_this (λ s,
      Select (label s) (_value s) (name s) (source s) (_items s) (_hidden s)
             (children s) (rendered s) v (updates s) (dispatched s)) st).
Proof. reflexivity. Qed.

(** X13: after a string has been assigned to [value] of a connected,
    rendered select, the listbox reporting that same value as selected
    (as it does when the binding of [selected] takes effect) dispatches no
    [change] event and leaves value and hidden input alone. *)
Theorem assigned_value_selected_is_silent
    (st : state) (h : nat) (s : string) (ev : dom_event) :
  _hidden (this st) = Some h →
  h < length (inputs (world st)) →
  rendered (this st) = true →
  let st1 := (set_value (JS.Str s) st).2 in
  ∃ st2, select_item (JS.Str s) ev st1 = (Ok (preventDefault ev), st2)
    ∧ dispatched (this st2) = dispatched (this st)
    ∧ world st2 = world st1
    ∧ _value (this st2) = JS.Str s.
Proof.
  intros Hh Hlt Hr st1. unfold st1. rewrite set_value_spec, Hh.
  rewrite select_item_spec, changed_spec. simpl. rewrite Hh, Hr.
  pose proof (store_input_value_lookup h (JS.Str s) _ Hlt) as Hv.
  destruct (store_input_value h (JS.Str s) (inputs (world st)) !! h) as [i'|];
    [|done].
  simpl in Hv. injection Hv as Hv.
  unfold JS.strict_eq. rewrite bool_decide_eq_true_2 by (simpl; congruence).
  eexists. split; [reflexivity|]. done.
Qed.

(** X14: [_changed] throws a TypeError exactly when the element has no
    hidden input yet or its template is not rendered, and then the state is
    as before. In every case the value, the items, the children, the
    console, the requests and the number of input elements are unchanged,
    and at most one [change] event is dispatched. *)
Theorem changed_frame (ev : dom_event) (st : state) :
  let r := _changed ev st in
  match r.1 with
  | Throw e =>
      r.2 = st ∧ (_hidden (this st) = None ∨ rendered (this st) = false)
  | Ok ev' =>
      ev' = preventDefault ev
      ∧ is_Some (_hidden (this st)) ∧ rendered (this st) = true
      ∧ (dispatched (this r.2) = dispatched (this st)
         ∨ dispatched (this r.2) = dispatched (this st) ++ ["change"])
  end
  ∧ _value (this r.2) = _value (this st)
  ∧ _items (this r.2) = _items (this st)
  ∧ children (this r.2) = children (this st)
  ∧ _hidden (this r.2) = _hidden (this st)
  ∧ console (world r.2) = console (world st)
  ∧ requests (world r.2) = requests (world st)
  ∧ length (inputs (world r.2)) = length (inputs (world st)).
Proof.
  simpl. rewrite changed_spec.
  destruct (_hidden (this st)) as [h|] eqn:Hh; [|repeat split; auto].
  destruct (rendered (this st)) eqn:Hr; [|repeat split; auto].
  destruct (JS.strict_eq _ _); simpl.
  - repeat split; eauto.
  - rewrite store_input_value_length. repeat split; eauto.
Qed.

End SelectChanged.

(** ** Invariants over the life of the element *)

Section SelectLife.
Import PbSelect.

Variable encodeURIComponent : string → string.
Variable resolveURL : string → string → option string.

#[local] Abbreviation _loadRemote := (_loadRemote encodeURIComponent resolveURL).
#[local] Abbreviation perform := (perform encodeURIComponent resolveURL).
#[local] Abbreviation perform_all := (perform_all encodeURIComponent resolveURL).

Lemma loadRemote_frame (st : state) :
  this (_loadRemote st).2 = this st
  ∧ inputs (world (_loadRemote st).2) = inputs (world st).
Proof.
  unfold PbSelect._loadRemote, _loadRemote_base, in_world, PbMixin.getEndpoint.
  run_comp.
  destruct (JS.truthy (source (this st))); [|done].
  case_bool_decide; simpl; destruct (resolveURL _ _); done.
Qed.

Lemma settled_frame (url : string) (o : fetch_outcome) (st : state) :
  let st' := (_loadRemote_settled url o st).2 in
  name (this st') = name (this st)
  ∧ _value (this st') = _value (this st)
  ∧ _hidden (this st') = _hidden (this st)
  ∧ inputs (world st') = inputs (world st)
  ∧ (children (this st') = children (this st)
     ∨ children (this st')
       = filter (λ c, slot_of (world st) c ≠ "") (children (this st))).
Proof.
  destruct o as [|[j|]]; simpl; [by auto 10 | | by auto 10].
  rewrite settled_json, clear_spec.
  destruct (items_of_json j), (rendered (this st)); simpl; by auto 10.
Qed.

(** A step that keeps the hidden input in place keeps [hidden_ok]. *)
Lemma hidden_ok_step (st st' : state) :
  hidden_ok st →
  name (this st') = name (this st) →
  _hidden (this st') = _hidden (this st) →
  (∀ h, Input h ∈ children (this st) → slot_of (world st) (Input h) ≠ "" →
        Input h ∈ children (this st')) →
  (∀ h i, inputs (world st) !! h = Some i →
          ∃ i', inputs (world st') !! h = Some i'
                ∧ input_type i' = input_type i
                ∧ input_slot i' = input_slot i
                ∧ input_name i' = input_name i) →
  hidden_ok st'.
Proof.
  intros Hok Hname Hhid Hchild Hinp h Hh. rewrite Hhid in Hh.
  destruct (Hok h Hh) as (Hin & i & Hi & Ht & Hs & Hn).
  destruct (Hinp h i Hi) as (i' & Hi' & Ht' & Hs' & Hn').
  split.
  - apply Hchild; [done|]. simpl. rewrite Hi. simpl. by rewrite Hs.
  - exists i'. rewrite Hname. repeat split; congruence.
Qed.

Lemma store_input_value_keeps (h : nat) (v : JS.value) (l : list input_element)
    (h' : nat) (i : input_element) :
  l !! h' = Some i →
  ∃ i', store_input_value h v l !! h' = Some i'
        ∧ input_type i' = input_type i
        ∧ input_slot i' = input_slot i
        ∧ input_name i' = input_name i.
Proof.
  intros Hi. unfold store_input_value.
  destruct (decide (h = h')) as [-> | Hne].
  - rewrite list_lookup_alter_eq, Hi. by eexists.
  - rewrite list_lookup_alter_ne, Hi by done. by eexists.
Qed.

Lemma perform_hidden_ok (c : call) (st : state) :
  hidden_ok st → hidden_ok (perform c st).2.
Proof.
  intros Hok. destruct c as [v| | | |url o| |ev|v ev]; simpl.
  - rewrite set_value_spec. apply (hidden_ok_step st); simpl; try done.
    intros h i Hi. destruct (_hidden (this st)); simpl.
    + by apply store_input_value_keeps.
    + by exists i.
  - intros h Hh. simpl in *. injection Hh as <-. split.
    + apply elem_of_app. right. by apply list_elem_of_singleton.
    + eexists. split; [by rewrite lookup_app_r, Nat.sub_diag by lia | done].
  - unfold bind, modify, ret. simpl.
    destruct (loadRemote_frame (first_render st)) as [Hthis Hinp].
    destruct (firstUpdated _ _ (first_render st)) as [[r|e] st'] eqn:Hst';
      unfold firstUpdated in Hst'; rewrite Hst' in Hthis, Hinp; simpl in *;
      (apply (hidden_ok_step st); [done | by rewrite Hthis .. |];
       intros h i Hi; exists i; by rewrite Hinp).
  - unfold bind, ret.
    destruct (loadRemote_frame st) as [Hthis Hinp].
    destruct (_loadRemote st) as [[r|e] st'] eqn:Hst'; simpl in *;
      (apply (hidden_ok_step st); [done | by rewrite Hthis .. |];
       intros h i Hi; exists i; by rewrite Hinp).
  - destruct (settled_frame url o st) as (Hn & _ & Hh & Hinp & Hch).
    apply (hidden_ok_step st); try done.
    + intros h Hin Hslot. destruct Hch as [-> | ->]; [done|].
      by apply list_elem_of_filter.
    + intros h i Hi. exists i. by rewrite Hinp.
  - rewrite clear_spec. destruct (rendered (this st)); [|done].
    apply (hidden_ok_step st); simpl; try done.
    + intros h Hin Hslot. by apply list_elem_of_filter.
    + intros h i Hi. by exists i.
  - unfold bind, ret. rewrite changed_spec.
    destruct (_hidden (this st)) as [h|]; [|done].
    destruct (rendered (this st)); [|done].
    destruct (JS.strict_eq _ _); [done|]. simpl.
    apply (hidden_ok_step st); simpl; try done.
    intros h' i Hi. by apply store_input_value_keeps.
  - unfold bind, ret. rewrite select_item_spec, changed_spec. simpl.
    assert (Hok' : hidden_ok (on_this (λ s,
      Select (label s) (_value s) (name s) (source s) (_items s) (_hidden s)
             (children s) (rendered s) v (updates s) (dispatched s)) st)).
    { apply (hidden_ok_step st); simpl; try done. intros h i Hi. by exists i. }
    destruct (_hidden (this st)) as [h|]; [|done].
    destruct (rendered (this st)); [|done].
    destruct (JS.strict_eq _ _); [done|]. simpl.
    apply (hidden_ok_step st); simpl; try done.
    intros h' i Hi. by apply store_input_value_keeps.
Qed.

(** X15: whatever happens to an element that started without a hidden
    input (assignments, connections, renders, requests and their responses,
    clearing, selections, in any order), the hidden input it refers to is
    always one of its children, of type [hidden], in the [output] slot and
    named after the element: loading items never removes it. *)
Theorem hidden_input_always_in_place (cs : list call) (st : state) :
  _hidden (this st) = None →
  hidden_ok (perform_all cs st).
Proof.
  intros Hnone.
  assert (Hok : hidden_ok st) by (intros h Hh; congruence).
  clear Hnone. revert st Hok.
  induction cs as [|c cs IH]; intros st Hok; [done|].
  simpl. apply IH. by apply perform_hidden_ok.
Qed.

Lemma perform_in_sync (c : call) (st : state) :
  is_selection c = false → in_sync st → in_sync (perform c st).2.
Proof.
  intros Hc Hsync. destruct c as [v| | | |url o| |ev|v ev]; simpl; try done.
  - rewrite set_value_spec. intros h Hh. simpl in *. rewrite Hh. simpl.
    specialize (Hsync h Hh). apply store_input_value_lookup.
    apply lookup_lt_is_Some. destruct (inputs (world st) !! h); [by eexists | done].
  - intros h Hh. simpl in *. injection Hh as <-.
    by rewrite lookup_app_r, Nat.sub_diag by lia.
  - unfold bind, modify, ret. simpl.
    destruct (loadRemote_frame (first_render st)) as [Hthis Hinp].
    destruct (firstUpdated _ _ (first_render st)) as [[r|e] st'] eqn:Hst';
      unfold firstUpdated in Hst'; rewrite Hst' in Hthis, Hinp; simpl in *;
      (intros h Hh; rewrite Hthis, Hinp in *; by apply Hsync).
  - unfold bind, ret.
    destruct (loadRemote_frame st) as [Hthis Hinp].
    destruct (_loadRemote st) as [[r|e] st'] eqn:Hst'; simpl in *;
      (intros h Hh; rewrite Hthis, Hinp in *; by apply Hsync).
  - destruct (settled_frame url o st) as (_ & Hv & Hh & Hinp & _).
    intros h Hh'. rewrite Hv, Hinp. rewrite Hh in Hh'. by apply Hsync.
  - rewrite clear_spec. by destruct (rendered (this st)).
Qed.

(** X17: as long as the user selects nothing, the hidden input the element
    refers to (the one created by the latest connection) holds the value of
    the element: assignments, connections, renders, requests, responses and
    clearing, in any order, keep it equal to the current [value]. *)
Theorem in_sync_until_selection (cs : list call) (st : state) :
  Forall (λ c, is_selection c = false) cs →
  in_sync st →
  in_sync (perform_all cs st).
Proof.
  intros Hcs. revert st.
  induction Hcs as [|c cs Hc _ IH]; intros st Hsync; [done|].
  simpl. apply IH. by apply perform_in_sync.
Qed.

Lemma hidden_handles_filter (P : child → Prop) `{!∀ c, Decision (P c)}
    (l : list child) :
  omap (λ c, match c with Input h => Some h | Node _ _ => None end) (filter P l)
  = filter (λ h, P (Input h))
      (omap (λ c, match c with Input h => Some h | Node _ _ => None end) l).
Proof.
  induction l as [|c l IH]; [done|].
  rewrite filter_cons. destruct c as [slot named | h]; simpl.
  - case_decide; exact IH.
  - rewrite filter_cons. case_decide; simpl; [f_equal|]; exact IH.
Qed.

Lemma submitted_unconnected (st : state) :
  unconnected st → submitted st = [].
Proof. intros [Hc _]. unfold submitted. by rewrite Hc. Qed.

Lemma submitted_connected_once (st : state) :
  connected_once st →
  ∃ nm, submitted st = [(nm, JS.to_input_value (_value (this st)))].
Proof.
  intros (h & i & Hc & _ & Hi & _ & Hv). exists (input_name i).
  unfold submitted. rewrite Hc. simpl. rewrite Hi. simpl. by rewrite Hv.
Qed.

(** Before the connection: every call but a selection keeps the element
    unconnected, except the connection itself. *)
Lemma perform_unconnected (c : call) (st : state) :
  is_selection c = false →
  unconnected st →
  if is_connection c then connected_once (perform c st).2
  else unconnected (perform c st).2.
Proof.
  intros Hc [Hch Hh]. destruct c as [v| | | |url o| |ev|v ev]; simpl; try done.
  - rewrite set_value_spec, Hh. by split.
  - eexists _, _. unfold hidden_children in *. simpl.
    rewrite omap_app, Hch. simpl. split; [reflexivity|]. split; [reflexivity|].
    by rewrite lookup_app_r, Nat.sub_diag by lia.
  - unfold bind, modify, ret. simpl.
    destruct (loadRemote_frame (first_render st)) as [Hthis _].
    destruct (firstUpdated _ _ (first_render st)) as [[r|e] st'] eqn:Hst';
      unfold firstUpdated in Hst'; rewrite Hst' in Hthis; simpl in *;
      unfold unconnected, hidden_children; by rewrite Hthis.
  - unfold bind, ret.
    destruct (loadRemote_frame st) as [Hthis _].
    destruct (_loadRemote st) as [[r|e] st'] eqn:Hst'; simpl in *;
      unfold unconnected, hidden_children; by rewrite Hthis.
  - destruct (settled_frame url o st) as (_ & _ & Hh' & _ & Hchild).
    split; [|congruence]. unfold hidden_children in *.
    destruct Hchild as [-> | ->]; [done|].
    by rewrite hidden_handles_filter, Hch.
  - rewrite clear_spec. destruct (rendered (this st)); [|done].
    split; [|done]. unfold hidden_children in *. simpl.
    by rewrite hidden_handles_filter, Hch.
Qed.

(** After the one connection: every call but a selection or another
    connection keeps the hidden input the only one and equal to the value. *)
Lemma perform_connected_once (c : call) (st : state) :
  is_selection c = false →
  is_connection c = false →
  connected_once st →
  connected_once (perform c st).2.
Proof.
  intros Hc Hn (h & i & Hch & Hh & Hi & Hs & Hv).
  assert (Hkeep : filter (λ h', slot_of (world st) (Input h') ≠ "") [h] = [h]).
  { rewrite filter_cons_True; [done|]. simpl. rewrite Hi. simpl. by rewrite Hs. }
  destruct c as [v| | | |url o| |ev|v ev]; simpl; try done.
  - rewrite set_value_spec, Hh. simpl.
    exists h, (InputElement (input_type i) (input_name i)
                            (JS.to_input_value v) (input_slot i)).
    split; [done|]. split; [done|]. split; [|done].
    simpl. unfold store_input_value. by rewrite list_lookup_alter_eq, Hi.
  - unfold bind, modify, ret. simpl.
    destruct (loadRemote_frame (first_render st)) as [Hthis Hinp].
    destruct (firstUpdated _ _ (first_render st)) as [[r|e] st'] eqn:Hst';
      unfold firstUpdated in Hst'; rewrite Hst' in Hthis, Hinp; simpl in *;
      (exists h, i; unfold hidden_children; rewrite Hthis, Hinp; by simpl).
  - unfold bind, ret.
    destruct (loadRemote_frame st) as [Hthis Hinp].
    destruct (_loadRemote st) as [[r|e] st'] eqn:Hst'; simpl in *;
      (exists h, i; unfold hidden_children; rewrite Hthis, Hinp; by simpl).
  - destruct (settled_frame url o st) as (_ & Hv' & Hh' & Hinp & Hchild).
    exists h, i. rewrite Hv', Hh', Hinp. split; [|done].
    unfold hidden_children in *.
    destruct Hchild as [-> | ->]; [done|].
    by rewrite hidden_handles_filter, Hch.
  - rewrite clear_spec. destruct (rendered (this st)).
    + exists h, i. split; [|done]. unfold hidden_children in *. simpl.
      by rewrite hidden_handles_filter, Hch.
    + by exists h, i.
Qed.

Lemma perform_all_connected_once (cs : list call) (st : state) :
  Forall (λ c, is_selection c = false) cs →
  Forall (λ c, is_connection c = false) cs →
  connected_once st →
  connected_once (perform_all cs st).
Proof.
  intros Hsel. revert st.
  induction Hsel as [|c cs Hc _ IH]; intros st Hconn Hst; [done|].
  apply Forall_cons in Hconn as [Hc' Hconn].
  simpl. apply IH; [done|]. by apply perform_connected_once.
Qed.

(** X16: for an element that starts unconnected and is connected at most
    once, as long as no selection is handled, a form never submits a value
    for it that is not its current value: after any sequence of
    assignments, renders, requests, responses and clearings around that one
    connection, the inputs among its children submit at most one value, and
    it is the current [value]. *)
Theorem submitted_value_until_selection (cs : list call) (st : state) :
  unconnected st →
  Forall (λ c, is_selection c = false) cs →
  length (filter (λ c, is_connection c = true) cs) ≤ 1 →
  let st' := perform_all cs st in
  length (submitted st') ≤ 1
  ∧ Forall (λ nv, nv.2 = JS.to_input_value (_value (this st'))) (submitted st').
Proof.
  intros Hst Hsel Hone. simpl.
  assert (Hend : unconnected (perform_all cs st) ∨ connected_once (perform_all cs st)).
  { revert st Hst Hone.
    induction Hsel as [|c cs Hc Hsel IH]; intros st Hst Hone; [by left|].
    simpl. pose proof (perform_unconnected c st Hc Hst) as Hstep.
    destruct (is_connection c) eqn:Hconn.
    - right. rewrite filter_cons_True in Hone by done. simpl in Hone.
      apply perform_all_connected_once; [done| |done].
      apply Forall_forall. intros c' Hin.
      destruct (is_connection c') eqn:Hc'; [|done].
      assert (c' ∈ filter (λ c, is_connection c = true) cs) as Hin'
        by by apply list_elem_of_filter.
      destruct (filter (λ c, is_connection c = true) cs); [|simpl in Hone; lia].
      by apply elem_of_nil in Hin'.
    - rewrite filter_cons_False in Hone by congruence. by apply IH. }
  destruct Hend as [Hun | Honce].
  - rewrite (submitted_unconnected _ Hun). split; [simpl; lia | constructor].
  - destruct (submitted_connected_once _ Honce) as [nm ->].
    split; [simpl; lia|]. by repeat constructor.
Qed.

End SelectLife.

(** ** The further properties at the example select *)

Section MoreInstances.
Import PbSelect.

Lemma clear_empties_default_slot_only_witness :
  ∃ st', _clear example_connected = (Ok tt, st')
    ∧ this st'
      = set_children (filter (λ c, slot_of (world example_connected) c ≠ "")
                             (children (this example_connected)))
                     (this example_connected)
    ∧ world st' = world example_connected
    ∧ (∀ c, c ∈ children (this st')
            ↔ c ∈ children (this example_connected)
              ∧ slot_of (world example_connected) c ≠ "")
    ∧ assignedNodes "" st' = Some []
    ∧ (∀ slot, slot ≠ "" → assignedNodes slot st' = assignedNodes slot example_connected).
Proof. apply (clear_empties_default_slot_only example_connected). reflexivity. Defined.

Lemma load_success_replaces_options_witness :
  let j := JS.JArray [JS.JObject [("text", JS.JString "English");
                                   ("value", JS.JString "en")];
                      JS.JObject [("text", JS.JString "Deutsch");
                                   ("value", JS.JString "de")]] in
  let items := [Item (Some (JS.JString "English")) (Some (JS.JString "en"));
                Item (Some (JS.JString "Deutsch")) (Some (JS.JString "de"))] in
  ∃ st', _loadRemote_settled "u" (Responded (Some j)) example_connected = (Ok tt, st')
    ∧ _items (this st') = items
    ∧ options st' = Loaded <$> items
    ∧ console (world st')
      = console (world example_connected)
        ++ [ConsoleLog "<pb-select> loaded %d items" [ArgNum (length items)]]
    ∧ inputs (world st') = inputs (world example_connected)
    ∧ _value (this st') = _value (this example_connected)
    ∧ _hidden (this st') = _hidden (this example_connected).
Proof.
  apply (load_success_replaces_options "u"
           (JS.JArray [JS.JObject [("text", JS.JString "English");
                                    ("value", JS.JString "en")];
                       JS.JObject [("text", JS.JString "Deutsch");
                                    ("value", JS.JString "de")]])
           [Item (Some (JS.JString "English")) (Some (JS.JString "en"));
            Item (Some (JS.JString "Deutsch")) (Some (JS.JString "de"))]
           example_connected).
  - reflexivity.
  - reflexivity.
Defined.

Lemma load_malformed_clears_slotted_options_witness :
  let j := JS.JArray [JS.JObject [("text", JS.JString "English")]; JS.JNull] in
  ∃ st', _loadRemote_settled "u" (Responded (Some j)) example_connected = (Ok tt, st')
    ∧ _items (this st') = _items (this example_connected)
    ∧ options st' = Loaded <$> _items (this example_connected)
    ∧ console (world st')
      = console (world example_connected)
        ++ [ConsoleError "<pb-select> request to %s failed" [ArgStr "u"]].
Proof.
  apply (load_malformed_clears_slotted_options "u"
           (JS.JArray [JS.JObject [("text", JS.JString "English")]; JS.JNull])
           (JS.TypeError "Cannot read properties of null") example_connected).
  - reflexivity.
  - reflexivity.
Defined.

Lemma loadRemote_without_subform_witness :
  let st := State (Select JS.Undefined JS.Null (JS.Str "lang") (JS.Str "api/items?lang=en")
                          [] None [Node "" []] true JS.Undefined [] [])
                  example_world in
  _getParameters encode_plain st = (Ok "", st)
  ∧ (_loadRemote encode_plain resolve_relative st).1
    = Ok (Some (if has_query "http://localhost:8080/app/api/items?lang=en"
                then "http://localhost:8080/app/api/items?lang=en" +:+ "&"
                else "http://localhost:8080/app/api/items?lang=en" +:+ "?")).
Proof.
  apply (loadRemote_without_subform encode_plain resolve_relative
           (State (Select JS.Undefined JS.Null (JS.Str "lang") (JS.Str "api/items?lang=en")
                          [] None [Node "" []] true JS.Undefined [] [])
                  example_world)
           "api/items?lang=en" "http://localhost:8080/app/").
  - repeat constructor.
  - reflexivity.
  - discriminate.
  - reflexivity.
  - reflexivity.
Defined.

(** The select after the user has picked "b" in the listbox. *)
Lemma changed_again_is_silent_witness :
  let st := on_this (λ s,
              Select (label s) (_value s) (name s) (source s) (_items s) (_hidden s)
                     (children s) (rendered s) (JS.Str "b") (updates s) (dispatched s))
              example_connected in
  let st1 := (_changed (DomEvent true false) st).2 in
  _changed (DomEvent true false) st1 = (Ok (preventDefault (DomEvent true false)), st1)
  ∧ input_value <$> inputs (world st1) !! 0 = Some "b".
Proof.
  apply (changed_again_is_silent
           (on_this (λ s,
              Select (label s) (_value s) (name s) (source s) (_items s) (_hidden s)
                     (children s) (rendered s) (JS.Str "b") (updates s) (dispatched s))
              example_connected)
           0 "b" (DomEvent true false) (DomEvent true false)).
  - reflexivity.
  - simpl. lia.
  - reflexivity.
  - reflexivity.
Defined.

Lemma assigned_value_selected_is_silent_witness :
  let st1 := (set_value (JS.Str "b") example_connected).2 in
  ∃ st2, select_item (JS.Str "b") (DomEvent true false) st1
         = (Ok (preventDefault (DomEvent true false)), st2)
    ∧ dispatched (this st2) = dispatched (this example_connected)
    ∧ world st2 = world st1
    ∧ _value (this st2) = JS.Str "b".
Proof.
  apply (assigned_value_selected_is_silent example_connected 0 "b" (DomEvent true false)).
  - reflexivity.
  - simpl. lia.
  - reflexivity.
Defined.

Lemma hidden_input_always_in_place_witness :
  _hidden (this (State example_markup example_world)) = None
  ∧ hidden_ok
      (perform_all encode_plain resolve_relative
         [SetValue (JS.Str "a"); Connected; FirstUpdated;
          Settled "http://localhost:8080/app/api/items?q=x y"
                  (Responded (Some (JS.JArray [])));
          SelectItem (JS.Str "b") (DomEvent true false); Connected; Clear]
         (State example_markup example_world)).
Proof.
  split; [reflexivity|].
  apply (hidden_input_always_in_place encode_plain resolve_relative).
  reflexivity.
Defined.

Lemma in_sync_until_selection_witness :
  in_sync (State example_markup example_world)
  ∧ in_sync
      (perform_all encode_plain resolve_relative
         [SetValue (JS.Str "a"); Connected; FirstUpdated;
          Settled "http://localhost:8080/app/api/items?q=x y" Rejected;
          SetValue (JS.Str "b"); LoadRemote; Clear]
         (State example_markup example_world)).
Proof.
  assert (H0 : in_sync (State example_markup example_world)).
  { intros h Hh. simpl in Hh. discriminate Hh. }
  split; [exact H0|].
  apply (in_sync_until_selection encode_plain resolve_relative).
  - repeat constructor.
  - exact H0.
Defined.

Lemma submitted_value_until_selection_witness :
  unconnected (State example_markup example_world)
  ∧ let st' := perform_all encode_plain resolve_relative
                 [SetValue (JS.Str "a"); Connected; FirstUpdated;
                  Settled "http://localhost:8080/app/api/items?q=x y"
                          (Responded (Some (JS.JArray [])));
                  SetValue (JS.Str "b"); LoadRemote; Clear]
                 (State example_markup example_world) in
    length (submitted st') ≤ 1
    ∧ Forall (λ nv, nv.2 = JS.to_input_value (_value (this st'))) (submitted st').
Proof.
  assert (H0 : unconnected (State example_markup example_world)) by by split.
  split; [exact H0|].
  apply (submitted_value_until_selection encode_plain resolve_relative).
  - exact H0.
  - repeat constructor.
  - simpl. lia.
Defined.

(** With a second connection the first hidden input stays behind with the
    value it had: the form then submits a stale value as well. *)
Example reconnection_submits_stale_value :
  submitted (perform_all encode_plain resolve_relative
               [SetValue (JS.Str "a"); Connected; Connected; SetValue (JS.Str "z")]
               (State example_markup example_world))
  = [("lang", "a"); ("lang", "z")].
Proof. reflexivity. Qed.

End MoreInstances.
